(** * Hospital queue server: hybrid slotting, wait times and the serving
      state machine

    Shallow embedding of the queue server (Patient schema, [getSortedQueue],
    [calculateWaitTimes], the START_CONSULTATION socket handler and the REST
    handlers for registration, status edit, deletion and reset), followed by
    the properties of the queue-ordering and serving core. *)

From Stdlib Require Import ZArith Lia Ascii.
From stdpp Require Import base tactics option list strings pretty sorting.
From Equations Require Import Equations.

Local Open Scope Z_scope.
Local Open Scope nat_scope.

(** ** Data model (types/patient.ts, models/Patient) *)

Inductive PatientType := BOOKED | WALK_IN.

#[global] Instance PatientType_eq_dec : EqDecision PatientType.
Proof. solve_decision. Defined.

(** The status of a document is the string stored in it.  The schema lists
    WAITING, IN_PROGRESS and DONE; an update that runs no validators stores
    any other text as well. *)
Abbreviation Status := string (only parsing).
Abbreviation WAITING := "WAITING"%string.
Abbreviation IN_PROGRESS := "IN_PROGRESS"%string.
Abbreviation DONE := "DONE"%string.

(** A stored document.  [_id] stands for the ObjectId, a timestamp is the
    number of milliseconds of a [Date], and [tokenNumber] is the integer the
    JavaScript number holds. *)
Record IPatient := mkPatient {
  _id : nat;
  name : string;
  phone : string;
  email : option string;
  tokenNumber : Z;
  type : PatientType;
  status : Status;
  department : string;
  createdAt : Z;
  startedAt : option Z;
  completedAt : option Z;
}.

#[global] Instance IPatient_eq_dec : EqDecision IPatient.
Proof. solve_decision. Defined.

(** [IQueueItem extends IPatient]: the spread document with the two derived
    fields. *)
Record IQueueItem := mkQueueItem {
  patientData : IPatient;
  position : nat;
  estimatedWaitTime : nat;
}.

(** ** Hybrid slotting: the merge loop of [getSortedQueue] *)

Record MergeState := mkMergeState {
  sortedQueue : list IPatient;
  bookedIndex : nat;
  walkInIndex : nat;
}.

Section merge_loop.
Variables bookedPatients walkInPatients : list IPatient.

(** [sortedQueue.push(bookedPatients[bookedIndex++])]; the read is always in
    range under the guards of the loops. *)
Definition push_booked (st : MergeState) : MergeState :=
  match bookedPatients !! bookedIndex st with
  | Some p => mkMergeState (sortedQueue st ++ [p]) (S (bookedIndex st)) (walkInIndex st)
  | None => mkMergeState (sortedQueue st) (S (bookedIndex st)) (walkInIndex st)
  end.

(** [sortedQueue.push(walkInPatients[walkInIndex++])] *)
Definition push_walkIn (st : MergeState) : MergeState :=
  match walkInPatients !! walkInIndex st with
  | Some p => mkMergeState (sortedQueue st ++ [p]) (bookedIndex st) (S (walkInIndex st))
  | None => mkMergeState (sortedQueue st) (bookedIndex st) (S (walkInIndex st))
  end.

(** [for (let i = 0; i < 3 && bookedIndex < bookedPatients.length; i++)],
    the argument counts the rounds left, [3 - i]. *)
Fixpoint for_booked (rounds : nat) (st : MergeState) : MergeState :=
  match rounds with
  | 0 => st
  | S rounds' =>
      if bool_decide (bookedIndex st < length bookedPatients)
      then for_booked rounds' (push_booked st)
      else st
  end.

Definition while_cond (st : MergeState) : bool :=
  bool_decide (bookedIndex st < length bookedPatients)
  || bool_decide (walkInIndex st < length walkInPatients).

Definition while_body (st : MergeState) : MergeState :=
  let st1 := for_booked 3 st in
  if bool_decide (walkInIndex st1 < length walkInPatients)
  then push_walkIn st1
  else st1.

(** The [while] loop; [None] means the fuel ran out before the condition
    became false. *)
Fixpoint while_loop (fuel : nat) (st : MergeState) : option MergeState :=
  match fuel with
  | 0 => None
  | S fuel' =>
      if while_cond st then while_loop fuel' (while_body st) else Some st
  end.
End merge_loop.

Definition is_booked (p : IPatient) : Prop := type p = BOOKED.
Definition is_walkIn (p : IPatient) : Prop := type p = WALK_IN.
#[global] Instance is_booked_dec p : Decision (is_booked p).
Proof. unfold is_booked; apply _. Defined.
#[global] Instance is_walkIn_dec p : Decision (is_walkIn p).
Proof. unfold is_walkIn; apply _. Defined.

(** The body of [getSortedQueue] after the query: [patients] is the query
    result.  Every round of the loop consumes an entry, so [length patients]
    rounds and the final test suffice. *)
Definition slot_run (patients : list IPatient) : option MergeState :=
  let bookedPatients := filter is_booked patients in
  let walkInPatients := filter is_walkIn patients in
  while_loop bookedPatients walkInPatients (S (length patients))
    (mkMergeState [] 0 0).

Definition slotQueue (patients : list IPatient) : list IPatient :=
  match slot_run patients with
  | Some st => sortedQueue st
  | None => []
  end.

(** The slotting policy in the words of the specification: up to three from
    the front of the booked list, then one from the front of the walk-in
    list, until both are exhausted. *)
Equations? slot_merge (booked walkIn : list IPatient) : list IPatient
  by wf (length booked + length walkIn) lt :=
  slot_merge [] [] := [];
  slot_merge booked walkIn :=
    take 3 booked ++ take 1 walkIn ++ slot_merge (drop 3 booked) (drop 1 walkIn).
Proof.
  all: simpl; rewrite ?length_drop; lia.
Qed.

(** ** The collection and the Mongoose queries the server issues *)

(** The state of the database: the documents of the Patient collection in the
    order the store enumerates them, and the generator of fresh ObjectIds
    (modelled as a counter). *)
Record Db := mkDb {
  collection : list IPatient;
  idCounter : nat;
}.

Definition is_active (p : IPatient) : Prop :=
  status p = WAITING ∨ status p = IN_PROGRESS.
Definition in_progress (p : IPatient) : Prop := status p = IN_PROGRESS.
Definition has_id (id : nat) (p : IPatient) : Prop := _id p = id.
#[global] Instance is_active_dec p : Decision (is_active p).
Proof. unfold is_active; apply _. Defined.
#[global] Instance in_progress_dec p : Decision (in_progress p).
Proof. unfold in_progress; apply _. Defined.
#[global] Instance has_id_dec id p : Decision (has_id id p).
Proof. unfold has_id; apply _. Defined.

(** [.sort({ createdAt: 1 })]: ascending on [createdAt] only.  The store
    leaves the order of documents with equal keys open; the model returns
    them in the order of enumeration (a stable insertion sort). *)
Fixpoint insert_createdAt (p : IPatient) (l : list IPatient) : list IPatient :=
  match l with
  | [] => [p]
  | q :: l' =>
      if bool_decide (createdAt p ≤ createdAt q)%Z
      then p :: q :: l'
      else q :: insert_createdAt p l'
  end.

Definition sort_createdAt (l : list IPatient) : list IPatient :=
  foldr insert_createdAt [] l.

(** [Patient.find({ status: { $in: ['WAITING', 'IN_PROGRESS'] } }).sort({ createdAt: 1 })] *)
Definition find_active (docs : list IPatient) : list IPatient :=
  sort_createdAt (filter is_active docs).

(** [getSortedQueue] on a store that answers the query (the [catch] branch
    is taken when the query throws). *)
Definition getSortedQueue (db : Db) : list IPatient :=
  slotQueue (find_active (collection db)).

(** [Patient.findOne().sort({ tokenNumber: -1 })]: a document whose
    [tokenNumber] is largest, [None] on the empty collection. *)
Fixpoint findOne_tokenDesc (docs : list IPatient) : option IPatient :=
  match docs with
  | [] => None
  | p :: docs' =>
      match findOne_tokenDesc docs' with
      | None => Some p
      | Some q =>
          if bool_decide (tokenNumber q ≤ tokenNumber p)%Z then Some p else Some q
      end
  end.

(** Update of the first document that matches: the core of
    [findOneAndUpdate] and [findByIdAndUpdate] with [{ new: true }].  The
    result holds the updated document, [None] (null) when nothing matches. *)
Fixpoint update_first (P : IPatient → Prop) `{∀ p, Decision (P p)}
    (f : IPatient → IPatient) (docs : list IPatient)
    : option IPatient * list IPatient :=
  match docs with
  | [] => (None, [])
  | p :: docs' =>
      if decide (P p) then (Some (f p), f p :: docs')
      else let '(r, docs'') := update_first P f docs' in (r, p :: docs'')
  end.

(** Removal of the first document that matches: [findByIdAndDelete]. *)
Fixpoint delete_first (P : IPatient → Prop) `{∀ p, Decision (P p)}
    (docs : list IPatient) : option IPatient * list IPatient :=
  match docs with
  | [] => (None, [])
  | p :: docs' =>
      if decide (P p) then (Some p, docs')
      else let '(r, docs'') := delete_first P docs' in (r, p :: docs'')
  end.

Definition set_status (s : Status) (p : IPatient) : IPatient :=
  mkPatient (_id p) (name p) (phone p) (email p) (tokenNumber p) (type p)
    s (department p) (createdAt p) (startedAt p) (completedAt p).

(** [{ status: 'DONE', completedAt: new Date() }] *)
Definition complete (now : Z) (p : IPatient) : IPatient :=
  mkPatient (_id p) (name p) (phone p) (email p) (tokenNumber p) (type p)
    DONE (department p) (createdAt p) (startedAt p) (Some now).

(** [{ status: 'IN_PROGRESS', startedAt: new Date() }] *)
Definition start (now : Z) (p : IPatient) : IPatient :=
  mkPatient (_id p) (name p) (phone p) (email p) (tokenNumber p) (type p)
    IN_PROGRESS (department p) (createdAt p) (Some now) (completedAt p).

Definition with_collection (db : Db) (docs : list IPatient) : Db :=
  mkDb docs (idCounter db).

(** ** Wait times *)

Definition calculateWaitTimes (queue : list IPatient) : list IQueueItem :=
  imap (λ index patient,
          let position :=
            if bool_decide (status patient = IN_PROGRESS) then 0 else index in
          let estimatedWaitTime := position * 15 in
          mkQueueItem patient position estimatedWaitTime)
       queue.

(** ** Environment, notification sender and tracking link *)

(** Outcome of [twilio.messages.create]: it resolves with a message SID or
    it throws. *)
Inductive TwilioOutcome :=
  | Resolved (sid : string)
  | Threw (message : string).

Record TwilioMessage := mkMessage {
  msg_from : string;
  msg_to : string;
  msg_body : string;
}.

(** The environment variables the server reads, and the Twilio client, which
    exists when the account SID and the auth token are set. *)
Record Env := mkEnv {
  HOSPITAL_BASE_URL : option string;
  SEND_WHATSAPP_ON_REGISTER : option string;
  TWILIO_PHONE_NUMBER : option string;
  twilio : option (TwilioMessage → TwilioOutcome);
}.

Definition generateTrackingLink (env : Env) (tokenNumber : Z) : string :=
  let baseUrl :=
    match HOSPITAL_BASE_URL env with
    | Some u => if bool_decide (u = "") then "http://localhost:3000" else u
    | None => "http://localhost:3000"
    end in
  baseUrl +:+ "/track?token=" +:+ pretty tokenNumber.

Definition sendWhatsAppMessage (env : Env) (phoneNumber : string)
    (tokenNumber : Z) (patientName : string) : bool :=
  let shouldSend :=
    negb (bool_decide (SEND_WHATSAPP_ON_REGISTER env = Some "false")) in
  match shouldSend, twilio env with
  | true, Some client =>
      let trackingLink := generateTrackingLink env tokenNumber in
      let message :=
        "Hello " +:+ patientName +:+ "! Your token number is "
        +:+ pretty tokenNumber +:+ ". Track your queue status here: "
        +:+ trackingLink +:+ ". Thank you!" in
      match client (mkMessage
                      ("whatsapp:" +:+ default "undefined" (TWILIO_PHONE_NUMBER env))
                      ("whatsapp:+91" +:+ phoneNumber)
                      message) with
      | Resolved _ => true
      | Threw _ => false
      end
  | _, _ => false
  end.

(** ** What a handler lets out: socket emissions and the HTTP response *)

Inductive Emit :=
  | io_QUEUE_UPDATE (queue : list IQueueItem)
  | socket_QUEUE_UPDATE (queue : list IQueueItem)
  | socket_CONSULTATION_STARTED (success : bool) (queue : list IQueueItem)
  | socket_ERROR (message : string).

Inductive Json :=
  | JQueue (queue : list IQueueItem)
  | JCreated (patient : IPatient) (trackingLink : string) (whatsappSent : bool)
  | JTracked (patient : IPatient) (trackingLink : string)
  | JPatient (patient : option IPatient)
  | JMessage (message : string)
  | JError (error : string).

Record Response := mkResponse {
  statusCode : nat;
  json : Json;
}.

Definition queue_emitted (e : Emit) : option (list IQueueItem) :=
  match e with
  | io_QUEUE_UPDATE q => Some q
  | _ => None
  end.

(** The snapshots a handler publishes on the broadcast channel. *)
Definition published (out : list Emit) : list (list IQueueItem) :=
  omap queue_emitted out.

(** ** Socket handlers *)

(** GET_QUEUE: the annotated queue goes to the asking socket only. *)
Definition GET_QUEUE (db : Db) : list Emit :=
  [socket_QUEUE_UPDATE (calculateWaitTimes (getSortedQueue db))].

(** START_CONSULTATION, step 1: [Patient.findOneAndUpdate({ status: 'IN_PROGRESS' }, ...)]. *)
Definition complete_current (tDone : Z) (db : Db) : option IPatient * Db :=
  let '(currentPatient, docs) :=
    update_first in_progress (complete tDone) (collection db) in
  (currentPatient, with_collection db docs).

(** Step 3: [Patient.findByIdAndUpdate(queue[0]._id, ...)] when the queue is
    not empty. *)
Definition start_next (tStart : Z) (queue : list IPatient) (db : Db) : Db :=
  match queue with
  | [] => db
  | next :: _ =>
      with_collection db
        (update_first (has_id (_id next)) (start tStart) (collection db)).2
  end.

Definition START_CONSULTATION (tDone tStart : Z) (db : Db) : Db * list Emit :=
  let db1 := (complete_current tDone db).2 in
  let queue := getSortedQueue db1 in
  let db2 := start_next tStart queue db1 in
  let updatedQueue := getSortedQueue db2 in
  let queueWithWaitTimes := calculateWaitTimes updatedQueue in
  (db2, [io_QUEUE_UPDATE queueWithWaitTimes;
         socket_CONSULTATION_STARTED true queueWithWaitTimes]).

(** ** REST handlers *)

Record RegisterBody := mkBody {
  body_name : option string;
  body_phone : option string;
  body_type : option string;
}.

(** [(lastPatient?.tokenNumber || 0) + 1] *)
Definition next_tokenNumber (docs : list IPatient) : Z :=
  let last :=
    match findOne_tokenDesc docs with
    | Some lastPatient =>
        if bool_decide (tokenNumber lastPatient = 0%Z) then 0%Z
        else tokenNumber lastPatient
    | None => 0%Z
    end in
  (last + 1)%Z.

(** A required string path rejects a missing and an empty value. *)
Definition required (field : option string) : option string :=
  match field with
  | Some s => if bool_decide (s = "") then None else Some s
  | None => None
  end.

(** [type: type || 'WALK_IN'] checked against the enum of the schema. *)
Definition cast_type (field : option string) : option PatientType :=
  match field with
  | None => Some WALK_IN
  | Some s =>
      if bool_decide (s = "") then Some WALK_IN
      else if bool_decide (s = "BOOKED") then Some BOOKED
      else if bool_decide (s = "WALK_IN") then Some WALK_IN
      else None
  end.

(** [new Patient({...})] followed by the validation of [patient.save()]:
    required paths, the enum and the unique index on [tokenNumber]. *)
Definition new_Patient (now : Z) (body : RegisterBody) (db : Db)
    : option IPatient :=
  name' ← required (body_name body);
  phone' ← required (body_phone body);
  type' ← cast_type (body_type body);
  let tokenNumber' := next_tokenNumber (collection db) in
  if bool_decide (tokenNumber' ∈ tokenNumber <$> collection db) then None
  else Some (mkPatient (idCounter db) name' phone' None tokenNumber' type'
               WAITING "General" now None None).

(** The messages of the validators that fail, path by path in the order of
    the schema. *)
Definition path_errors (body : RegisterBody) : list string :=
  match required (body_name body) with
  | None => ["name: Path `name` is required."]
  | Some _ => []
  end
  ++ match required (body_phone body) with
     | None => ["phone: Path `phone` is required."]
     | Some _ => []
     end
  ++ match cast_type (body_type body), body_type body with
     | None, Some v =>
         ["type: `" +:+ v +:+ "` is not a valid enum value for path `type`."]
     | _, _ => []
     end.

Fixpoint join_errors (errors : list string) : string :=
  match errors with
  | [] => ""
  | [e] => e
  | e :: errors' => e +:+ ", " +:+ join_errors errors'
  end.

(** [error.message] of what [patient.save()] throws: the ValidationError
    with the failing paths, or, for a body that passes validation, the
    duplicate-key error of the unique index as the server words it on the
    default database. *)
Definition save_error (body : RegisterBody) (db : Db) : string :=
  match path_errors body with
  | [] =>
      "E11000 duplicate key error collection: hospital-queue.patients index: tokenNumber_1 dup key: { tokenNumber: "
      +:+ pretty (next_tokenNumber (collection db)) +:+ " }"
  | errors => "Patient validation failed: " +:+ join_errors errors
  end.

(** POST /api/patients; a failed [save] is answered with 400 and the message
    of the error. *)
Definition POST_patients (env : Env) (now : Z) (body : RegisterBody) (db : Db)
    : Db * list Emit * Response :=
  match new_Patient now body db with
  | None => (db, [], mkResponse 400 (JError (save_error body db)))
  | Some patient =>
      let db1 := mkDb (collection db ++ [patient]) (S (idCounter db)) in
      let whatsappSent :=
        sendWhatsAppMessage env (phone patient) (tokenNumber patient)
          (name patient) in
      let queue := getSortedQueue db1 in
      let queueWithWaitTimes := calculateWaitTimes queue in
      (db1, [io_QUEUE_UPDATE queueWithWaitTimes],
       mkResponse 201
         (JCreated patient (generateTrackingLink env (tokenNumber patient))
            whatsappSent))
  end.

(** The [:id] of a route: the text of a well-formed ObjectId, taken as the
    id it denotes, or any other text, which [findById], [findByIdAndUpdate]
    and [findByIdAndDelete] refuse with a CastError. *)
Inductive IdParam :=
  | ObjectId (id : nat)
  | Malformed (raw : string).

Definition dquote : string := String "034"%char EmptyString.

(** The message of that CastError. *)
Definition cast_error (raw : string) : string :=
  "Cast to ObjectId failed for value " +:+ dquote +:+ raw +:+ dquote
  +:+ " (type string) at path " +:+ dquote +:+ "_id" +:+ dquote
  +:+ " for model " +:+ dquote +:+ "Patient" +:+ dquote.

(** GET /api/queue *)
Definition GET_queue (db : Db) : Response :=
  mkResponse 200 (JQueue (calculateWaitTimes (getSortedQueue db))).

(** GET /api/patients/:id *)
Definition GET_patient (env : Env) (id : IdParam) (db : Db) : Response :=
  match id with
  | Malformed raw => mkResponse 500 (JError (cast_error raw))
  | ObjectId id =>
      match list_find (has_id id) (collection db) with
      | None => mkResponse 404 (JError "Patient not found")
      | Some (_, patient) =>
          mkResponse 200
            (JTracked patient (generateTrackingLink env (tokenNumber patient)))
      end
  end.

(** The update [{ status }] of the status edit: [req.body.status] is stored
    as it is, no validator runs; a body without [status] leaves an empty
    update, which changes nothing. *)
Definition status_update (status : option Status) (p : IPatient) : IPatient :=
  match status with
  | Some s => set_status s p
  | None => p
  end.

(** PUT /api/patients/:id/status *)
Definition PUT_status (id : IdParam) (status : option Status) (db : Db)
    : Db * list Emit * Response :=
  match id with
  | Malformed raw => (db, [], mkResponse 400 (JError (cast_error raw)))
  | ObjectId id =>
      let '(patient, docs) :=
        update_first (has_id id) (status_update status) (collection db) in
      let db1 := with_collection db docs in
      let queue := getSortedQueue db1 in
      let queueWithWaitTimes := calculateWaitTimes queue in
      (db1, [io_QUEUE_UPDATE queueWithWaitTimes],
       mkResponse 200 (JPatient patient))
  end.

(** DELETE /api/patients/:id *)
Definition DELETE_patient (id : IdParam) (db : Db)
    : Db * list Emit * Response :=
  match id with
  | Malformed raw => (db, [], mkResponse 500 (JError (cast_error raw)))
  | ObjectId id =>
      match delete_first (has_id id) (collection db) with
      | (None, _) => (db, [], mkResponse 404 (JError "Patient not found"))
      | (Some _, docs) =>
          let db1 := with_collection db docs in
          let queue := getSortedQueue db1 in
          let queueWithWaitTimes := calculateWaitTimes queue in
          (db1, [io_QUEUE_UPDATE queueWithWaitTimes],
           mkResponse 200 (JMessage "Patient removed successfully"))
      end
  end.

(** POST /api/reset *)
Definition POST_reset (db : Db) : Db * list Emit * Response :=
  (with_collection db [], [io_QUEUE_UPDATE []],
   mkResponse 200 (JMessage "Queue reset successfully")).

(** ** Runs of the server: mutating requests handled one after the other *)

Inductive Request :=
  | RegisterPatient (env : Env) (now : Z) (body : RegisterBody)
  | EditStatus (id : IdParam) (status : option Status)
  | DeletePatient (id : IdParam)
  | ResetQueue
  | Advance (tDone tStart : Z).

Definition handle (r : Request) (db : Db) : Db * list Emit :=
  match r with
  | RegisterPatient env now body => (POST_patients env now body db).1
  | EditStatus id status => (PUT_status id status db).1
  | DeletePatient id => (DELETE_patient id db).1
  | ResetQueue => (POST_reset db).1
  | Advance tDone tStart => START_CONSULTATION tDone tStart db
  end.

Definition run (rs : list Request) (db : Db) : Db :=
  foldl (λ db r, (handle r db).1) db rs.

Definition empty_db : Db := mkDb [] 0.

(** Scenario A of the specification: four booked registrations followed by
    two walk-in registrations, all at the same instant. *)
Definition scenarioA_env : Env := mkEnv None None None None.
Definition scenarioA_register (who kind : string) : Request :=
  RegisterPatient scenarioA_env 0%Z
    (mkBody (Some who) (Some "9000000000") (Some kind)).
Definition scenarioA : Db :=
  run [scenarioA_register "B1" "BOOKED"; scenarioA_register "B2" "BOOKED";
       scenarioA_register "B3" "BOOKED"; scenarioA_register "B4" "BOOKED";
       scenarioA_register "W1" "WALK_IN"; scenarioA_register "W2" "WALK_IN"]
      empty_db.

(** A queue whose singleton invariant is broken: two entries in progress
    around a waiting one. *)
Definition sample_patient (id : nat) (s : Status) (t : PatientType) : IPatient :=
  mkPatient id "P" "9000000000" None (Z.of_nat (S id)) t s "General"
    (Z.of_nat id) None None.
Definition two_in_progress : list IPatient :=
  [sample_patient 0 WAITING BOOKED; sample_patient 1 IN_PROGRESS BOOKED;
   sample_patient 2 WAITING WALK_IN; sample_patient 3 IN_PROGRESS WALK_IN].

(** A sequence of START_CONSULTATION events, each with the two instants its
    handler reads from the clock. *)
Definition advance_all (calls : list (Z * Z)) (db : Db) : Db :=
  foldl (λ db call, (START_CONSULTATION call.1 call.2 db).1) db calls.

(** Scenario C of the specification: the head of scenario A is in
    progress. *)
Definition scenarioC : Db := (START_CONSULTATION 10 11 scenarioA).1.

(** ** Orders on documents *)




(** ** Example requests *)

(** An environment whose Twilio client fails on every message. *)
Definition sample_env : Env :=
  mkEnv None None (Some "+14155238886") (Some (λ _, Threw "timeout")).
Definition sample_body : RegisterBody :=
  mkBody (Some "Asha") (Some "9000000007") (Some "BOOKED").

(** ** Creation order and token numbers *)

(** The identity of a document and the token it carries. *)
Definition key (p : IPatient) : nat * Z := (_id p, tokenNumber p).
Definition keys (db : Db) : list (nat * Z) := key <$> collection db.

(** Created later, numbered higher. *)
Definition key_lt (a b : nat * Z) : Prop := a.1 < b.1 ∧ (a.2 < b.2)%Z.

(** The documents are listed in the order of their creation with strictly
    increasing tokens, and their ids were issued by the generator. *)
Definition tokens_follow_creation (db : Db) : Prop :=
  StronglySorted key_lt (keys db)
  ∧ Forall (λ k, k.1 < idCounter db) (keys db).

(** A registration, the deletion of the entry it created, and a second
    registration. *)
Definition reuse_requests : list Request :=
  [RegisterPatient sample_env 1 sample_body;
   DeletePatient (ObjectId 0);
   RegisterPatient sample_env 2 sample_body].

(** No token is ever given to two entries: entries with different ids met at
    any two moments of a run carry different tokens. *)
Definition tokens_never_reused (rs : list Request) : Prop :=
  ∀ (i j : nat) (p q : IPatient),
    p ∈ collection (run (take i rs) empty_db) →
    q ∈ collection (run (take j rs) empty_db) →
    _id p ≠ _id q → tokenNumber p ≠ tokenNumber q.

(** ** Daily statistics *)

(** The filter of [countDocuments]: status DONE and [completedAt] in
    [startOfDay, endOfDay); a document without [completedAt] does not
    match. *)
Definition done_between (startOfDay endOfDay : Z) (p : IPatient) : Prop :=
  status p = DONE
  ∧ match completedAt p with
    | Some t => (startOfDay ≤ t < endOfDay)%Z
    | None => False
    end.
#[global] Instance done_between_dec s e p : Decision (done_between s e p).
Proof. unfold done_between. destruct (completedAt p); apply _. Defined.

(** The count of GET /api/stats/done-today and of GET_DAILY_DONE_COUNT.
    [startOfDay] is the local midnight before the request and [endOfDay] the
    local midnight after it, as [Date] computes them. *)
Definition done_today (startOfDay endOfDay : Z) (db : Db) : nat :=
  length (filter (done_between startOfDay endOfDay) (collection db)).

(** A walk-in entry is served, then a booked entry registers. *)
Definition overtaken_requests : list Request :=
  [scenarioA_register "W1" "WALK_IN"; Advance 1 2;
   scenarioA_register "B1" "BOOKED"].

(** * Properties *)

(** ** The merge loop computes the slotting policy *)

Lemma slot_merge_nil_nil : slot_merge [] [] = [].
Proof. by simp slot_merge. Qed.

Lemma slot_merge_step (b w : list IPatient) :
  b ≠ [] ∨ w ≠ [] →
  slot_merge b w = take 3 b ++ take 1 w ++ slot_merge (drop 3 b) (drop 1 w).
Proof.
  destruct b as [|x b], w as [|y w]; simp slot_merge; try done.
Qed.

Lemma drop_min {A} (l : list A) (n : nat) :
  drop (n `min` length l) l = drop n l.
Proof.
  destruct (decide (n ≤ length l)) as [Hle|Hgt].
  - by rewrite Nat.min_l.
  - rewrite Nat.min_r by lia. rewrite !drop_ge by lia. done.
Qed.

Section merge_loop_facts.
Variables b w : list IPatient.

Lemma for_booked_spec (n : nat) (st : MergeState) :
  for_booked b n st =
    mkMergeState (sortedQueue st ++ take n (drop (bookedIndex st) b))
      ((bookedIndex st + n) `min` (bookedIndex st `max` length b))
      (walkInIndex st).
Proof.
  revert st. induction n as [|n IH]; intros [acc i j];
    cbn [for_booked sortedQueue bookedIndex walkInIndex].
  - rewrite take_0, app_nil_r. f_equal. lia.
  - case_bool_decide as Hlt.
    + rewrite IH. unfold push_booked.
      cbn [sortedQueue bookedIndex walkInIndex].
      destruct (lookup_lt_is_Some_2 b i Hlt) as [p Hp]. rewrite Hp.
      cbn [sortedQueue bookedIndex walkInIndex].
      rewrite (drop_S _ _ _ Hp), firstn_cons, <- app_assoc.
      f_equal. lia.
    + rewrite drop_ge by lia. rewrite take_nil, app_nil_r. f_equal. lia.
Qed.

Lemma while_body_spec (st : MergeState) :
  bookedIndex st ≤ length b → walkInIndex st ≤ length w →
  while_body b w st =
    mkMergeState
      (sortedQueue st ++ take 3 (drop (bookedIndex st) b)
                      ++ take 1 (drop (walkInIndex st) w))
      ((bookedIndex st + 3) `min` length b)
      ((walkInIndex st + 1) `min` length w).
Proof.
  destruct st as [acc i j]; cbn [sortedQueue bookedIndex walkInIndex].
  intros Hi Hj.
  unfold while_body. rewrite for_booked_spec.
  cbn [sortedQueue bookedIndex walkInIndex].
  rewrite (Nat.max_r i) by done.
  case_bool_decide as Hlt.
  - unfold push_walkIn; cbn [sortedQueue bookedIndex walkInIndex].
    destruct (lookup_lt_is_Some_2 w j Hlt) as [p Hp]. rewrite Hp.
    rewrite (drop_S _ _ _ Hp), firstn_cons, take_0, <- app_assoc.
    f_equal. lia.
  - rewrite (drop_ge w) by lia. rewrite take_nil, app_nil_r. f_equal. lia.
Qed.

(** With fuel beyond the number of entries left, the loop ends with both
    indices at the ends of their lists and the policy's merge of the two
    remainders pushed on the queue. *)
Lemma while_loop_spec (fuel : nat) (st : MergeState) :
  bookedIndex st ≤ length b → walkInIndex st ≤ length w →
  (length b - bookedIndex st) + (length w - walkInIndex st) < fuel →
  while_loop b w fuel st =
    Some (mkMergeState
            (sortedQueue st ++
               slot_merge (drop (bookedIndex st) b) (drop (walkInIndex st) w))
            (length b) (length w)).
Proof.
  revert st. induction fuel as [|fuel IH]; intros st Hi Hj Hfuel; [lia|].
  cbn [while_loop].
  assert (while_cond b w st
          = bool_decide (bookedIndex st < length b ∨ walkInIndex st < length w))
    as -> by (unfold while_cond; repeat case_bool_decide; tauto).
  case_bool_decide as Hgo.
  - rewrite IH; rewrite while_body_spec by done;
      cbn [sortedQueue bookedIndex walkInIndex]; try lia.
    f_equal. f_equal.
    rewrite (slot_merge_step (drop (bookedIndex st) b)).
    + rewrite !drop_drop, !drop_min, <- !app_assoc. done.
    + destruct Hgo as [Hgo|Hgo]; [left|right]; intros Hnil;
        apply (f_equal length) in Hnil; rewrite length_drop in Hnil;
        simpl in Hnil; lia.
  - rewrite !drop_ge by lia. rewrite slot_merge_nil_nil, app_nil_r.
    destruct st as [acc i j]; cbn in *. f_equal. f_equal; lia.
Qed.
End merge_loop_facts.

Lemma length_filter_type (patients : list IPatient) :
  length (filter is_booked patients) + length (filter is_walkIn patients)
  = length patients.
Proof.
  induction patients as [|p l IH]; [done|].
  rewrite !filter_cons.
  repeat case_decide; unfold is_booked, is_walkIn in *; simpl;
    try congruence; try lia.
  destruct (type p); done.
Qed.

Lemma slot_run_spec (patients : list IPatient) :
  slot_run patients =
    Some (mkMergeState
            (slot_merge (filter is_booked patients) (filter is_walkIn patients))
            (length (filter is_booked patients))
            (length (filter is_walkIn patients))).
Proof.
  unfold slot_run. rewrite while_loop_spec; simpl; try lia.
  - done.
  - pose proof (length_filter_type patients). lia.
Qed.

Lemma slotQueue_spec (patients : list IPatient) :
  slotQueue patients =
    slot_merge (filter is_booked patients) (filter is_walkIn patients).
Proof. unfold slotQueue. by rewrite slot_run_spec. Qed.

(** C1. The merge loop of [getSortedQueue] ends within its fuel with both
    lists exhausted, and its queue is the policy's merge of the booked and
    walk-in sublists: at each round up to three entries from the front of the
    booked list, then one from the front of the walk-in list (three booked
    entries and one walk-in entry while both lists hold that many); when one
    list is empty the other is appended in its own order.  Registering
    B1..B4 and then W1, W2 composes to B1, B2, B3, W1, B4, W2. *)
Theorem C1_hybrid_slotting :
  (∀ b w : list IPatient,
     while_loop b w (S (length b + length w)) (mkMergeState [] 0 0)
     = Some (mkMergeState (slot_merge b w) (length b) (length w)))
  ∧ (∀ patients : list IPatient,
       slotQueue patients
       = slot_merge (filter is_booked patients) (filter is_walkIn patients))
  ∧ slot_merge [] [] = []
  ∧ (∀ x b w,
       slot_merge (x :: b) w
       = take 3 (x :: b) ++ take 1 w ++ slot_merge (drop 3 (x :: b)) (drop 1 w))
  ∧ (∀ y b w,
       slot_merge b (y :: w)
       = take 3 b ++ [y] ++ slot_merge (drop 3 b) w)
  ∧ (∀ b1 b2 b3 b y w,
       slot_merge (b1 :: b2 :: b3 :: b) (y :: w)
       = b1 :: b2 :: b3 :: y :: slot_merge b w)
  ∧ (∀ w, slot_merge [] w = w)
  ∧ (∀ b, slot_merge b [] = b)
  ∧ (∀ db : Db,
       getSortedQueue db
       = slot_merge (filter is_booked (find_active (collection db)))
           (filter is_walkIn (find_active (collection db))))
  ∧ name <$> getSortedQueue scenarioA = ["B1"; "B2"; "B3"; "W1"; "B4"; "W2"].
Proof.
  assert (Hnilw : ∀ w, slot_merge [] w = w).
  { induction w as [|y w IH]; [apply slot_merge_nil_nil|].
    rewrite slot_merge_step by (right; done).
    cbn [firstn skipn app]. rewrite take_0, drop_0, IH. done. }
  assert (Hnilb : ∀ b, slot_merge b [] = b).
  { intros b. remember (length b) as n eqn:Hn. revert b Hn.
    induction n as [n IH] using lt_wf_ind. intros b ->.
    destruct b as [|x b]; [apply slot_merge_nil_nil|].
    rewrite slot_merge_step by (left; done).
    rewrite take_nil, drop_nil, app_nil_l.
    rewrite (IH (length (drop 3 (x :: b)))); [apply take_drop| |done].
    rewrite length_drop. cbn [length]. lia. }
  split_and!.
  - intros b w. rewrite while_loop_spec;
      cbn [sortedQueue bookedIndex walkInIndex]; try lia. done.
  - apply slotQueue_spec.
  - apply slot_merge_nil_nil.
  - intros x b w. apply slot_merge_step. by left.
  - intros y b w. rewrite slot_merge_step by (right; done).
    cbn [firstn skipn]. by rewrite take_0, drop_0.
  - intros b1 b2 b3 b y w. rewrite slot_merge_step by (left; done).
    cbn [firstn skipn app]. by rewrite take_0, drop_0.
  - apply Hnilw.
  - apply Hnilb.
  - intros db. apply slotQueue_spec.
  - vm_compute. reflexivity.
Qed.

(** ** The composed queue is a stable rearrangement of the query result *)

Lemma slot_merge_ind (P : list IPatient → list IPatient → Prop) :
  P [] [] →
  (∀ b w, b ≠ [] ∨ w ≠ [] → P (drop 3 b) (drop 1 w) → P b w) →
  ∀ b w, P b w.
Proof.
  intros Hnil Hstep b w.
  remember (length b + length w) as n eqn:Hn. revert b w Hn.
  induction n as [n IH] using lt_wf_ind. intros b w ->.
  destruct (decide (b = [] ∧ w = [])) as [[-> ->]|Hne]; [done|].
  assert (b ≠ [] ∨ w ≠ []) as Hor.
  { destruct b, w; try (left; done); try (right; done). by destruct Hne. }
  apply Hstep; [done|].
  eapply IH; [|done]. rewrite !length_drop.
  destruct Hor as [Hb|Hw]; [destruct b|destruct w]; simpl; try done; lia.
Qed.

Lemma slot_merge_Permutation (b w : list IPatient) : slot_merge b w ≡ₚ b ++ w.
Proof.
  revert b w.
  apply (slot_merge_ind (λ b w, slot_merge b w ≡ₚ b ++ w));
    [by rewrite slot_merge_nil_nil|].
  intros b w Hne IH. rewrite slot_merge_step, IH by done.
  rewrite <- (take_drop 3 b) at 3. rewrite <- (take_drop 1 w) at 3.
  rewrite <- !app_assoc. f_equiv.
  rewrite !app_assoc. f_equiv. apply Permutation_app_comm.
Qed.

Lemma filter_all (P : IPatient → Prop) `{∀ p, Decision (P p)} (l : list IPatient) :
  Forall P l → filter P l = l.
Proof.
  induction 1 as [|p l Hp _ IH]; [done|].
  by rewrite filter_cons_True, IH.
Qed.

Lemma filter_none (P : IPatient → Prop) `{∀ p, Decision (P p)} (l : list IPatient) :
  Forall (λ p, ¬ P p) l → filter P l = [].
Proof.
  induction 1 as [|p l Hp _ IH]; [done|].
  by rewrite filter_cons_False.
Qed.

Lemma slot_merge_filter (P Q : IPatient → Prop)
    `{∀ p, Decision (P p)} `{∀ p, Decision (Q p)} (b w : list IPatient) :
  (∀ p, P p → ¬ Q p) → Forall P b → Forall Q w →
  filter P (slot_merge b w) = b ∧ filter Q (slot_merge b w) = w.
Proof.
  intros HPQ. revert b w.
  apply (slot_merge_ind (λ b w, Forall P b → Forall Q w →
           filter P (slot_merge b w) = b ∧ filter Q (slot_merge b w) = w)).
  - by rewrite slot_merge_nil_nil.
  - intros b w Hne IH Hb Hw. rewrite slot_merge_step by done.
    destruct IH as [IHb IHw]; [by apply Forall_drop..|].
    rewrite !filter_app, IHb, IHw.
    rewrite (filter_all P (take 3 b)) by by apply Forall_take.
    rewrite (filter_all Q (take 1 w)) by by apply Forall_take.
    rewrite (filter_none P (take 1 w)), (filter_none Q (take 3 b)).
    + by rewrite !app_nil_l, !take_drop.
    + apply Forall_take. eapply Forall_impl; [exact Hb|]. exact HPQ.
    + apply Forall_take. eapply Forall_impl; [exact Hw|].
      intros p Hq Hp. by apply (HPQ p).
Qed.

Lemma Forall_filter_self (P : IPatient → Prop) `{∀ p, Decision (P p)}
    (l : list IPatient) : Forall P (filter P l).
Proof. apply Forall_forall. intros p Hp. by apply list_elem_of_filter in Hp as [? _]. Qed.

Lemma booked_not_walkIn (p : IPatient) : is_booked p → ¬ is_walkIn p.
Proof. unfold is_booked, is_walkIn. congruence. Qed.

Lemma filter_type_Permutation (patients : list IPatient) :
  filter is_booked patients ++ filter is_walkIn patients ≡ₚ patients.
Proof.
  induction patients as [|p l IH]; [done|].
  rewrite !filter_cons.
  destruct (decide (is_booked p)) as [Hb|Hb], (decide (is_walkIn p)) as [Hw|Hw].
  - by destruct (booked_not_walkIn p).
  - simpl. by rewrite IH.
  - rewrite <- Permutation_middle. by rewrite IH.
  - unfold is_booked, is_walkIn in *. destruct (type p); done.
Qed.

Lemma slotQueue_Permutation (patients : list IPatient) :
  slotQueue patients ≡ₚ patients.
Proof.
  rewrite slotQueue_spec, slot_merge_Permutation.
  apply filter_type_Permutation.
Qed.

Lemma slotQueue_filter (patients : list IPatient) :
  filter is_booked (slotQueue patients) = filter is_booked patients
  ∧ filter is_walkIn (slotQueue patients) = filter is_walkIn patients.
Proof.
  rewrite slotQueue_spec.
  apply slot_merge_filter; [apply booked_not_walkIn|apply Forall_filter_self..].
Qed.

(** The query: a rearrangement of the active documents, ascending on
    [createdAt]. *)
Lemma insert_createdAt_Permutation (p : IPatient) (l : list IPatient) :
  insert_createdAt p l ≡ₚ p :: l.
Proof.
  induction l as [|q l IH]; [done|]. simpl.
  case_bool_decide; [done|]. rewrite IH. apply Permutation_swap.
Qed.

Lemma sort_createdAt_Permutation (l : list IPatient) : sort_createdAt l ≡ₚ l.
Proof.
  induction l as [|p l IH]; [done|]. simpl.
  by rewrite insert_createdAt_Permutation, IH.
Qed.

Lemma find_active_Permutation (docs : list IPatient) :
  find_active docs ≡ₚ filter is_active docs.
Proof. apply sort_createdAt_Permutation. Qed.

Lemma getSortedQueue_Permutation (db : Db) :
  getSortedQueue db ≡ₚ filter is_active (collection db).
Proof.
  unfold getSortedQueue.
  by rewrite slotQueue_Permutation, find_active_Permutation.
Qed.

(** C2. The composed queue is a permutation of the query result, of the same
    length, in which the booked entries keep their relative order and so do
    the walk-in entries; on a store it is a permutation of the active
    documents, and it repeats no entry when the query result repeats none. *)
Theorem C2_stable_permutation (patients : list IPatient) :
  slotQueue patients ≡ₚ patients
  ∧ length (slotQueue patients) = length patients
  ∧ filter is_booked (slotQueue patients) = filter is_booked patients
  ∧ filter is_walkIn (slotQueue patients) = filter is_walkIn patients
  ∧ (∀ p, p ∈ slotQueue patients ↔ p ∈ patients)
  ∧ (NoDup patients → NoDup (slotQueue patients))
  ∧ (∀ db : Db,
       getSortedQueue db ≡ₚ filter is_active (collection db)
       ∧ length (getSortedQueue db) = length (filter is_active (collection db))
       ∧ filter is_booked (getSortedQueue db)
         = filter is_booked (find_active (collection db))
       ∧ filter is_walkIn (getSortedQueue db)
         = filter is_walkIn (find_active (collection db))).
Proof.
  pose proof (slotQueue_Permutation patients) as Hperm.
  split_and!.
  - done.
  - by rewrite Hperm.
  - apply slotQueue_filter.
  - apply slotQueue_filter.
  - intros p. by rewrite Hperm.
  - intros Hnd. by rewrite Hperm.
  - intros db. pose proof (getSortedQueue_Permutation db) as Hq.
    split_and!; [done|by rewrite Hq|apply slotQueue_filter..].
Qed.

Lemma C2_stable_permutation_witness :
  NoDup (collection scenarioA) ∧ NoDup (slotQueue (collection scenarioA)).
Proof.
  assert (NoDup (collection scenarioA)) as Hnd.
  { apply (bool_decide_unpack _). vm_compute. exact I. }
  split; [exact Hnd|].
  apply (C2_stable_permutation (collection scenarioA)). exact Hnd.
Defined.

(** ** Wait times *)

Lemma calculateWaitTimes_lookup (queue : list IPatient) (i : nat) (p : IPatient) :
  queue !! i = Some p →
  calculateWaitTimes queue !! i
  = Some (mkQueueItem p (if bool_decide (status p = IN_PROGRESS) then 0 else i)
            ((if bool_decide (status p = IN_PROGRESS) then 0 else i) * 15)).
Proof.
  intros Hp. unfold calculateWaitTimes. by rewrite list_lookup_imap, Hp.
Qed.

Lemma calculateWaitTimes_data (queue : list IPatient) :
  patientData <$> calculateWaitTimes queue = queue.
Proof.
  unfold calculateWaitTimes. rewrite fmap_imap.
  apply list_eq. intros i. rewrite list_lookup_imap.
  by destruct (queue !! i).
Qed.

Lemma calculateWaitTimes_length (queue : list IPatient) :
  length (calculateWaitTimes queue) = length queue.
Proof. apply length_imap. Qed.

(** C5. The annotator gives an entry in progress position 0 and every other
    entry its index in the whole sequence, sets the estimated wait to
    fifteen times the position, and keeps the entries in their order. *)
Theorem C5_wait_times (queue : list IPatient) (i : nat) (p : IPatient) :
  queue !! i = Some p →
  ∃ item,
    calculateWaitTimes queue !! i = Some item
    ∧ patientData item = p
    ∧ (status p = IN_PROGRESS → position item = 0)
    ∧ (status p ≠ IN_PROGRESS → position item = i)
    ∧ estimatedWaitTime item = position item * 15
    ∧ length (calculateWaitTimes queue) = length queue
    ∧ patientData <$> calculateWaitTimes queue = queue.
Proof.
  intros Hp. eexists. split; [by apply calculateWaitTimes_lookup|].
  cbn [patientData position estimatedWaitTime].
  split_and!; try done.
  - intros Hs. by rewrite bool_decide_eq_true_2.
  - intros Hs. by rewrite bool_decide_eq_false_2.
  - apply calculateWaitTimes_length.
  - apply calculateWaitTimes_data.
Qed.

Lemma C5_wait_times_witness :
  ∃ item,
    calculateWaitTimes two_in_progress !! 2 = Some item
    ∧ patientData item = sample_patient 2 WAITING WALK_IN
    ∧ (WAITING = IN_PROGRESS → position item = 0)
    ∧ (WAITING ≠ IN_PROGRESS → position item = 2)
    ∧ estimatedWaitTime item = position item * 15
    ∧ length (calculateWaitTimes two_in_progress) = length two_in_progress
    ∧ patientData <$> calculateWaitTimes two_in_progress = two_in_progress.
Proof.
  apply (C5_wait_times two_in_progress 2 (sample_patient 2 WAITING WALK_IN)).
  reflexivity.
Defined.

(** C10. When several entries of the sequence are in progress, each of them
    gets position 0 and estimated wait 0, and every other entry still gets
    its index in the whole sequence. *)
Theorem C10_several_in_progress (queue : list IPatient) (i j : nat)
    (p q : IPatient) :
  i ≠ j →
  queue !! i = Some p → status p = IN_PROGRESS →
  queue !! j = Some q → status q = IN_PROGRESS →
  ∀ (k : nat) (r : IPatient),
    queue !! k = Some r →
    ∃ item,
      calculateWaitTimes queue !! k = Some item
      ∧ patientData item = r
      ∧ (status r = IN_PROGRESS →
         position item = 0 ∧ estimatedWaitTime item = 0)
      ∧ (status r ≠ IN_PROGRESS →
         position item = k ∧ estimatedWaitTime item = k * 15).
Proof.
  intros _ _ _ _ _ k r Hr.
  eexists. split; [by apply calculateWaitTimes_lookup|].
  cbn [patientData position estimatedWaitTime].
  split_and!; try done.
  - intros Hs. by rewrite bool_decide_eq_true_2.
  - intros Hs. by rewrite bool_decide_eq_false_2.
Qed.

Lemma C10_several_in_progress_witness :
  (∃ item,
     calculateWaitTimes two_in_progress !! 1 = Some item
     ∧ position item = 0 ∧ estimatedWaitTime item = 0)
  ∧ (∃ item,
       calculateWaitTimes two_in_progress !! 3 = Some item
       ∧ position item = 0 ∧ estimatedWaitTime item = 0)
  ∧ (∃ item,
       calculateWaitTimes two_in_progress !! 2 = Some item
       ∧ position item = 2 ∧ estimatedWaitTime item = 30).
Proof.
  pose proof (C10_several_in_progress two_in_progress 1 3
                (sample_patient 1 IN_PROGRESS BOOKED)
                (sample_patient 3 IN_PROGRESS WALK_IN)
                ltac:(lia) eq_refl eq_refl eq_refl eq_refl) as H.
  split_and!.
  - destruct (H 1 _ eq_refl) as (item & Hi & _ & Hin & _).
    exists item. split; [exact Hi|]. apply Hin. reflexivity.
  - destruct (H 3 _ eq_refl) as (item & Hi & _ & Hin & _).
    exists item. split; [exact Hi|]. apply Hin. reflexivity.
  - destruct (H 2 _ eq_refl) as (item & Hi & _ & _ & Hout).
    exists item. split; [exact Hi|]. apply Hout. discriminate.
Defined.

(** ** Updates of the first matching document *)

Section update_first_facts.
Context (P : IPatient → Prop) `{∀ p, Decision (P p)}.
Variable f : IPatient → IPatient.

Lemma update_first_find (docs : list IPatient) :
  update_first P f docs =
    match list_find P docs with
    | Some (i, p) => (Some (f p), <[i := f p]> docs)
    | None => (None, docs)
    end.
Proof.
  induction docs as [|p docs IH]; [done|].
  cbn [update_first list_find]. destruct (decide (P p)); [done|].
  rewrite IH. destruct (list_find P docs) as [[i q]|]; done.
Qed.

Lemma update_first_ids (docs : list IPatient) :
  (∀ p, _id (f p) = _id p) →
  _id <$> (update_first P f docs).2 = _id <$> docs.
Proof.
  intros Hid. induction docs as [|p docs IH]; [done|].
  cbn [update_first]. destruct (decide (P p)).
  - cbn. by rewrite Hid.
  - destruct (update_first P f docs) as [r docs'] eqn:E. cbn in *.
    by rewrite IH.
Qed.

Lemma update_first_none (docs : list IPatient) :
  Forall (λ p, ¬ P p) docs → update_first P f docs = (None, docs).
Proof.
  induction 1 as [|p docs Hp _ IH]; [done|].
  cbn [update_first]. destruct (decide (P p)); [done|]. by rewrite IH.
Qed.
End update_first_facts.

Lemma find_by_id (docs : list IPatient) (i : nat) (p : IPatient) :
  NoDup (_id <$> docs) → docs !! i = Some p →
  list_find (has_id (_id p)) docs = Some (i, p).
Proof.
  intros Hnd Hp. apply list_find_Some. split_and!; [done|done|].
  intros j y Hy Hlt Hid. unfold has_id in Hid.
  assert (j = i); [|lia].
  eapply (NoDup_lookup _ j i (_id p) Hnd); rewrite list_lookup_fmap.
  - by rewrite Hy, <- Hid.
  - by rewrite Hp.
Qed.

(** ** In-progress entries across the two updates of START_CONSULTATION *)

Lemma complete_not_in_progress (t : Z) (p : IPatient) : ¬ in_progress (complete t p).
Proof. done. Qed.

Lemma complete_current_count (t : Z) (docs : list IPatient) :
  length (filter in_progress (update_first in_progress (complete t) docs).2)
  = pred (length (filter in_progress docs)).
Proof.
  induction docs as [|p docs IH]; [done|].
  cbn [update_first]. destruct (decide (in_progress p)) as [Hp|Hp].
  - cbn [snd].
    rewrite (filter_cons_False in_progress (complete t p))
      by apply complete_not_in_progress.
    by rewrite (filter_cons_True in_progress p docs Hp).
  - destruct (update_first in_progress (complete t) docs) as [r docs'].
    cbn [snd] in *.
    by rewrite (filter_cons_False in_progress p docs' Hp),
      (filter_cons_False in_progress p docs Hp).
Qed.

Lemma filter_in_progress_insert (docs : list IPatient) (i : nat) (p q : IPatient) :
  Forall (λ p, ¬ in_progress p) docs → docs !! i = Some p → in_progress q →
  filter in_progress (<[i := q]> docs) = [q].
Proof.
  intros Hall. revert i. induction Hall as [|d docs Hd Hall IH]; intros i Hp Hq.
  - done.
  - destruct i as [|i].
    + change (<[0:=q]> (d :: docs)) with (q :: docs).
      rewrite (filter_cons_True in_progress q docs Hq). by rewrite filter_none.
    + change (<[S i:=q]> (d :: docs)) with (d :: <[i:=q]> docs).
      rewrite (filter_cons_False in_progress d _ Hd). by apply IH.
Qed.

Lemma length_zero_nil {A} (l : list A) : length l = 0 → l = [].
Proof. by destruct l. Qed.

Lemma filter_nil_Forall (P : IPatient → Prop) `{∀ p, Decision (P p)}
    (l : list IPatient) : filter P l = [] → Forall (λ p, ¬ P p) l.
Proof.
  intros Hnil. apply Forall_forall. intros p Hin Hp.
  by apply (filter_nil_not_elem_of P l p).
Qed.

Lemma in_progress_active (p : IPatient) : in_progress p → is_active p.
Proof. by right. Qed.

(** One START_CONSULTATION on a store with distinct ids. *)
Section advance_step.
Variables (tDone tStart : Z) (db : Db).
Hypothesis Hids : NoDup (_id <$> collection db).

Let db1 := (complete_current tDone db).2.
Let db2 := (START_CONSULTATION tDone tStart db).1.

Lemma complete_current_collection :
  collection db1 = (update_first in_progress (complete tDone) (collection db)).2.
Proof.
  unfold db1, complete_current.
  by destruct (update_first in_progress (complete tDone) (collection db)).
Qed.

Lemma complete_current_ids : _id <$> collection db1 = _id <$> collection db.
Proof. rewrite complete_current_collection. by apply update_first_ids. Qed.

Lemma start_next_cons (next : IPatient) (rest : list IPatient) :
  getSortedQueue db1 = next :: rest →
  ∃ i, collection db1 !! i = Some next
       ∧ is_active next
       ∧ collection db2 = <[i := start tStart next]> (collection db1).
Proof.
  intros Hq.
  assert (next ∈ filter is_active (collection db1)) as Hin.
  { rewrite <- getSortedQueue_Permutation, Hq. left. }
  apply list_elem_of_filter in Hin as [Hact Hin].
  apply list_elem_of_lookup in Hin as [i Hi].
  exists i. split_and!; [done..|].
  unfold db2, START_CONSULTATION. cbn [fst]. fold db1. rewrite Hq.
  unfold start_next. cbn [collection with_collection].
  rewrite (update_first_find (has_id (_id next))), (find_by_id _ i next);
    [done| |done].
  by rewrite complete_current_ids.
Qed.

Lemma start_next_nil :
  getSortedQueue db1 = [] →
  db2 = db1 ∧ Forall (λ p, ¬ is_active p) (collection db1).
Proof.
  intros Hq. split.
  - unfold db2, START_CONSULTATION. cbn [fst]. fold db1. by rewrite Hq.
  - apply (filter_nil_Forall is_active). apply Permutation_nil_r.
    by rewrite <- getSortedQueue_Permutation, Hq.
Qed.

Lemma advance_ids : _id <$> collection db2 = _id <$> collection db.
Proof.
  rewrite <- complete_current_ids.
  unfold db2, START_CONSULTATION. cbn [fst]. fold db1.
  destruct (getSortedQueue db1) as [|next rest]; [done|].
  unfold start_next. cbn [collection with_collection].
  by apply update_first_ids.
Qed.

Lemma advance_in_progress :
  length (filter in_progress (collection db)) ≤ 1 →
  filter in_progress (collection db2)
  = start tStart <$> take 1 (getSortedQueue db1).
Proof.
  intros Hone.
  assert (Forall (λ p, ¬ in_progress p) (collection db1)) as Hnone.
  { apply (filter_nil_Forall in_progress), length_zero_nil.
    rewrite complete_current_collection, complete_current_count. lia. }
  destruct (getSortedQueue db1) as [|next rest] eqn:Hq.
  - destruct (start_next_nil Hq) as [-> _]. by apply filter_none.
  - destruct (start_next_cons next rest Hq) as (i & Hi & _ & ->).
    by apply (filter_in_progress_insert _ i next).
Qed.
End advance_step.

(** ** START_CONSULTATION *)

(** C3. START_CONSULTATION on a store with distinct ids: the first document
    in progress, when there is one, becomes DONE with [completedAt] stamped,
    and nothing changes otherwise; the queue is composed from the store after
    that update; its head, when there is one, becomes IN_PROGRESS with
    [startedAt] stamped, and on an empty queue the store is left without an
    entry in progress; in every case the annotated queue of the final store
    is broadcast (the empty one on an empty queue) and no error is emitted. *)
Theorem C3_advance_service (tDone tStart : Z) (db : Db) :
  NoDup (_id <$> collection db) →
  let db1 := (complete_current tDone db).2 in
  let db2 := (START_CONSULTATION tDone tStart db).1 in
  let out := (START_CONSULTATION tDone tStart db).2 in
  match list_find in_progress (collection db) with
  | Some (i, current) =>
      complete_current tDone db
      = (Some (complete tDone current),
         with_collection db (<[i := complete tDone current]> (collection db)))
      ∧ status (complete tDone current) = DONE
      ∧ completedAt (complete tDone current) = Some tDone
  | None => complete_current tDone db = (None, db)
  end
  ∧ match getSortedQueue db1 with
    | next :: _ =>
        ∃ i, collection db1 !! i = Some next
             ∧ collection db2 = <[i := start tStart next]> (collection db1)
             ∧ status (start tStart next) = IN_PROGRESS
             ∧ startedAt (start tStart next) = Some tStart
    | [] =>
        db2 = db1
        ∧ Forall (λ p, status p ≠ IN_PROGRESS) (collection db2)
        ∧ published out = [[]]
    end
  ∧ out = [io_QUEUE_UPDATE (calculateWaitTimes (getSortedQueue db2));
           socket_CONSULTATION_STARTED true
             (calculateWaitTimes (getSortedQueue db2))]
  ∧ published out = [calculateWaitTimes (getSortedQueue db2)]
  ∧ (∀ message, socket_ERROR message ∉ out).
Proof.
  intros Hids db1 db2 out. split_and!.
  - unfold complete_current. rewrite update_first_find.
    destruct (list_find in_progress (collection db)) as [[i current]|]; [done|].
    by destruct db.
  - destruct (getSortedQueue db1) as [|next rest] eqn:Hq.
    + destruct (start_next_nil tDone tStart db Hq) as [Heq Hall].
      fold db1 db2 in Heq, Hall. split_and!; [done| |].
      * rewrite Heq. eapply Forall_impl; [exact Hall|].
        intros p Hp Hs. apply Hp. by right.
      * unfold out, START_CONSULTATION. cbn [snd]. fold db1.
        rewrite Hq. cbn [start_next]. rewrite Hq. done.
    + destruct (start_next_cons tDone tStart db Hids next rest Hq)
        as (i & Hi & _ & Hdb2).
      exists i. done.
  - done.
  - done.
  - intros message Hin. unfold out, START_CONSULTATION in Hin. cbn [snd] in Hin.
    apply elem_of_cons in Hin as [?|Hin]; [done|].
    apply elem_of_cons in Hin as [?|Hin]; [done|].
    by apply elem_of_nil in Hin.
Qed.

Lemma C3_advance_service_witness :
  NoDup (_id <$> collection scenarioC)
  ∧ (START_CONSULTATION 20 21 scenarioC).2
    = [io_QUEUE_UPDATE
         (calculateWaitTimes
            (getSortedQueue (START_CONSULTATION 20 21 scenarioC).1));
       socket_CONSULTATION_STARTED true
         (calculateWaitTimes
            (getSortedQueue (START_CONSULTATION 20 21 scenarioC).1))].
Proof.
  assert (NoDup (_id <$> collection scenarioC)) as Hids.
  { apply (bool_decide_unpack _). vm_compute. exact I. }
  split; [exact Hids|].
  apply (C3_advance_service 20 21 scenarioC Hids).
Defined.

(** ** Any number of START_CONSULTATION events *)

Lemma advance_all_snoc (calls : list (Z * Z)) (tDone tStart : Z) (db : Db) :
  advance_all (calls ++ [(tDone, tStart)]) db
  = (START_CONSULTATION tDone tStart (advance_all calls db)).1.
Proof. unfold advance_all. by rewrite foldl_app. Qed.

Lemma advance_all_invariant (calls : list (Z * Z)) (db : Db) :
  NoDup (_id <$> collection db) →
  length (filter in_progress (collection db)) ≤ 1 →
  NoDup (_id <$> collection (advance_all calls db))
  ∧ length (filter in_progress (collection (advance_all calls db))) ≤ 1.
Proof.
  induction calls as [|[tDone tStart] calls IH] using rev_ind;
    intros Hids Hone; [done|].
  destruct (IH Hids Hone) as [Hids' Hone'].
  rewrite advance_all_snoc. split.
  - by rewrite advance_ids.
  - rewrite (advance_in_progress _ _ _ Hids' Hone'), length_fmap, length_take.
    lia.
Qed.

(** C4. From a store with distinct ids and at most one entry in progress,
    any sequence of START_CONSULTATION events leaves at most one entry in
    progress, and after the last event that entry is the head of the queue
    composed from the store as it was after that event had completed the
    previous entry (when this queue is empty, no entry is in progress). *)
Theorem C4_single_in_progress (db : Db) (calls : list (Z * Z)) :
  NoDup (_id <$> collection db) →
  length (filter in_progress (collection db)) ≤ 1 →
  length (filter in_progress (collection (advance_all calls db))) ≤ 1
  ∧ ∀ calls0 tDone tStart,
      calls = calls0 ++ [(tDone, tStart)] →
      filter in_progress (collection (advance_all calls db))
      = start tStart
          <$> take 1 (getSortedQueue
                        (complete_current tDone (advance_all calls0 db)).2).
Proof.
  intros Hids Hone. split.
  - by apply advance_all_invariant.
  - intros calls0 tDone tStart ->. rewrite advance_all_snoc.
    destruct (advance_all_invariant calls0 db Hids Hone) as [Hids' Hone'].
    by apply advance_in_progress.
Qed.

Lemma C4_single_in_progress_witness :
  length (filter in_progress
            (collection (advance_all [(10, 11); (20, 21)]%Z scenarioA))) ≤ 1
  ∧ name <$> filter in_progress
               (collection (advance_all [(10, 11); (20, 21)]%Z scenarioA))
    = ["B2"].
Proof.
  assert (NoDup (_id <$> collection scenarioA)) as Hids.
  { apply (bool_decide_unpack _). vm_compute. exact I. }
  assert (length (filter in_progress (collection scenarioA)) ≤ 1) as Hone.
  { vm_compute. lia. }
  destruct (C4_single_in_progress scenarioA [(10, 11); (20, 21)]%Z Hids Hone)
    as [Hle Hhead].
  split; [exact Hle|].
  rewrite (Hhead [(10, 11)]%Z 20%Z 21%Z eq_refl). vm_compute. reflexivity.
Defined.

(** ** Order of the two sublists *)







(** ** Token numbers *)

Lemma findOne_tokenDesc_max (docs : list IPatient) :
  match findOne_tokenDesc docs with
  | Some last =>
      last ∈ docs ∧ Forall (λ p, (tokenNumber p ≤ tokenNumber last)%Z) docs
  | None => docs = []
  end.
Proof.
  induction docs as [|p docs IH]; [done|]. cbn [findOne_tokenDesc].
  destruct (findOne_tokenDesc docs) as [q|].
  - destruct IH as [Hin Hmax]. case_bool_decide as Hle.
    + split; [left|]. constructor; [lia|].
      eapply Forall_impl; [exact Hmax|]. intros r Hr. cbn in Hr. lia.
    + split; [by right|]. constructor; [lia|done].
  - subst docs. split; [left|]. by repeat constructor.
Qed.

Lemma next_tokenNumber_last (docs : list IPatient) (last : IPatient) :
  findOne_tokenDesc docs = Some last →
  next_tokenNumber docs = (tokenNumber last + 1)%Z.
Proof.
  intros Hlast. unfold next_tokenNumber. rewrite Hlast.
  case_bool_decide as Hz; [by rewrite Hz|done].
Qed.

Lemma next_tokenNumber_gt (docs : list IPatient) :
  Forall (λ p, (tokenNumber p < next_tokenNumber docs)%Z) docs.
Proof.
  pose proof (findOne_tokenDesc_max docs) as Hmax.
  destruct (findOne_tokenDesc docs) as [last|] eqn:Hlast.
  - destruct Hmax as [_ Hmax]. rewrite (next_tokenNumber_last _ _ Hlast).
    eapply Forall_impl; [exact Hmax|]. intros p Hp. cbn in Hp. lia.
  - by subst docs.
Qed.

Lemma next_tokenNumber_fresh (docs : list IPatient) :
  next_tokenNumber docs ∉ tokenNumber <$> docs.
Proof.
  intros Hin. apply list_elem_of_fmap in Hin as (p & Heq & Hp).
  pose proof (next_tokenNumber_gt docs) as Hgt.
  eapply Forall_forall in Hgt; [|exact Hp]. lia.
Qed.

(** A registration with a name, a phone and a valid type passes the
    validation of [save]. *)
Lemma new_Patient_valid (now : Z) (body : RegisterBody) (db : Db)
    (n ph : string) (ty : PatientType) :
  required (body_name body) = Some n →
  required (body_phone body) = Some ph →
  cast_type (body_type body) = Some ty →
  new_Patient now body db
  = Some (mkPatient (idCounter db) n ph None
            (next_tokenNumber (collection db)) ty WAITING "General" now
            None None).
Proof.
  intros Hn Hph Hty. unfold new_Patient. rewrite Hn, Hph, Hty. cbn.
  rewrite bool_decide_eq_false_2; [done|]. apply next_tokenNumber_fresh.
Qed.

Lemma new_Patient_Some (now : Z) (body : RegisterBody) (db : Db) (patient : IPatient) :
  new_Patient now body db = Some patient →
  _id patient = idCounter db
  ∧ tokenNumber patient = next_tokenNumber (collection db)
  ∧ status patient = WAITING
  ∧ createdAt patient = now.
Proof.
  unfold new_Patient. intros Hnew.
  destruct (required (body_name body)); [|done].
  destruct (required (body_phone body)); [|done].
  destruct (cast_type (body_type body)); [|done].
  cbn in Hnew. destruct (bool_decide _); [done|].
  injection Hnew as <-. done.
Qed.

(** ** Registration and the notification sender *)

(** C9. A registration that passes validation stores the entry, broadcasts
    the queue of the store that holds it and answers 201 with the created
    entry, whatever the environment and the Twilio client do: the outcome of
    the sender reaches the caller only as the flag [whatsappSent], which is
    false when the delivery throws or no client is configured. *)
Theorem C9_notification_never_fails_registration
    (env : Env) (now : Z) (body : RegisterBody) (db : Db)
    (n ph : string) (ty : PatientType) :
  required (body_name body) = Some n →
  required (body_phone body) = Some ph →
  cast_type (body_type body) = Some ty →
  let patient :=
    mkPatient (idCounter db) n ph None (next_tokenNumber (collection db)) ty
      WAITING "General" now None None in
  let db1 := mkDb (collection db ++ [patient]) (S (idCounter db)) in
  POST_patients env now body db
  = (db1,
     [io_QUEUE_UPDATE (calculateWaitTimes (getSortedQueue db1))],
     mkResponse 201
       (JCreated patient (generateTrackingLink env (tokenNumber patient))
          (sendWhatsAppMessage env ph (tokenNumber patient) n)))
  ∧ patient ∈ collection (POST_patients env now body db).1.1
  ∧ (∀ env',
       (POST_patients env' now body db).1 = (POST_patients env now body db).1
       ∧ statusCode (POST_patients env' now body db).2 = 201)
  ∧ (∀ env' phoneNumber tokenNumber patientName,
       match twilio env' with
       | Some client => ∀ m, ∃ e, client m = Threw e
       | None => True
       end →
       sendWhatsAppMessage env' phoneNumber tokenNumber patientName = false).
Proof.
  intros Hn Hph Hty patient db1.
  assert (∀ e, POST_patients e now body db
               = (db1,
                  [io_QUEUE_UPDATE (calculateWaitTimes (getSortedQueue db1))],
                  mkResponse 201
                    (JCreated patient
                       (generateTrackingLink e (tokenNumber patient))
                       (sendWhatsAppMessage e ph (tokenNumber patient) n))))
    as Hpost.
  { intros e. unfold POST_patients.
    by rewrite (new_Patient_valid now body db n ph ty Hn Hph Hty). }
  split_and!.
  - apply Hpost.
  - rewrite Hpost. cbn. apply elem_of_app. right. left.
  - intros env'. by rewrite !Hpost.
  - intros env' phoneNumber tokenNumber patientName Hfail.
    unfold sendWhatsAppMessage.
    destruct (negb _); [|done].
    destruct (twilio env') as [client|]; [|done].
    match goal with
    | |- context [client ?m] => by destruct (Hfail m) as [e ->]
    end.
Qed.

Lemma C9_notification_never_fails_registration_witness :
  statusCode (POST_patients sample_env 7 sample_body scenarioA).2 = 201
  ∧ name <$> collection (POST_patients sample_env 7 sample_body scenarioA).1.1
    = ["B1"; "B2"; "B3"; "B4"; "W1"; "W2"; "Asha"]
  ∧ json (POST_patients sample_env 7 sample_body scenarioA).2
    = JCreated
        (mkPatient 6 "Asha" "9000000007" None 7 BOOKED WAITING "General" 7
           None None)
        "http://localhost:3000/track?token=7" false.
Proof.
  destruct (C9_notification_never_fails_registration sample_env
              7 sample_body scenarioA
              "Asha" "9000000007" BOOKED eq_refl eq_refl eq_refl)
    as (Hpost & _ & _ & _).
  rewrite Hpost. split_and!; reflexivity.
Defined.

(** ** An id that does not resolve *)

Lemma delete_first_none (P : IPatient → Prop) `{∀ p, Decision (P p)}
    (docs : list IPatient) :
  Forall (λ p, ¬ P p) docs → delete_first P docs = (None, docs).
Proof.
  induction 1 as [|p docs Hp _ IH]; [done|].
  cbn [delete_first]. destruct (decide (P p)); [done|]. by rewrite IH.
Qed.

(** C7, on the code.  For a well-formed id that no document has, the status
    edit still broadcasts a queue snapshot and answers 200 with a null body,
    whatever status the body carries, where the deletion answers 404 and
    broadcasts nothing, and the lookup answers 404; the store is unchanged in
    all of them. *)
Theorem C7_not_found (id : nat) (s : option Status) (db : Db) :
  Forall (λ p, _id p ≠ id) (collection db) →
  PUT_status (ObjectId id) s db
  = (db, [io_QUEUE_UPDATE (calculateWaitTimes (getSortedQueue db))],
     mkResponse 200 (JPatient None))
  ∧ published (PUT_status (ObjectId id) s db).1.2
    = [calculateWaitTimes (getSortedQueue db)]
  ∧ DELETE_patient (ObjectId id) db
    = (db, [], mkResponse 404 (JError "Patient not found"))
  ∧ published (DELETE_patient (ObjectId id) db).1.2 = []
  ∧ (∀ env, GET_patient env (ObjectId id) db
            = mkResponse 404 (JError "Patient not found")).
Proof.
  intros Hnone.
  assert (PUT_status (ObjectId id) s db
          = (db, [io_QUEUE_UPDATE (calculateWaitTimes (getSortedQueue db))],
             mkResponse 200 (JPatient None))) as Hput.
  { unfold PUT_status. rewrite update_first_none by done. by destruct db. }
  assert (DELETE_patient (ObjectId id) db
          = (db, [], mkResponse 404 (JError "Patient not found"))) as Hdel.
  { unfold DELETE_patient. by rewrite delete_first_none. }
  rewrite Hput, Hdel. split_and!; try done.
  intros env. unfold GET_patient.
  by rewrite (proj2 (list_find_None (has_id id) (collection db)) Hnone).
Qed.

Lemma C7_not_found_witness :
  statusCode (PUT_status (ObjectId 99) (Some DONE) scenarioA).2 = 200
  ∧ length (published (PUT_status (ObjectId 99) (Some DONE) scenarioA).1.2) = 1
  ∧ statusCode (DELETE_patient (ObjectId 99) scenarioA).2 = 404.
Proof.
  assert (Forall (λ p, _id p ≠ 99) (collection scenarioA)) as Hnone.
  { vm_compute. repeat constructor; lia. }
  destruct (C7_not_found 99 (Some DONE) scenarioA Hnone)
    as (Hput & _ & Hdel & _ & _).
  rewrite Hput, Hdel. split_and!; reflexivity.
Defined.

(** ** Token numbers along a run *)

Lemma update_first_fmap {B} (g : IPatient → B) (P : IPatient → Prop)
    `{∀ p, Decision (P p)} (f : IPatient → IPatient) (docs : list IPatient) :
  (∀ p, g (f p) = g p) →
  g <$> (update_first P f docs).2 = g <$> docs.
Proof.
  intros Hg. induction docs as [|p docs IH]; [done|].
  cbn [update_first]. destruct (decide (P p)).
  - cbn. by rewrite Hg.
  - destruct (update_first P f docs) as [r docs']. cbn in *. by rewrite IH.
Qed.

Lemma delete_first_sublist (P : IPatient → Prop) `{∀ p, Decision (P p)}
    (docs : list IPatient) :
  (delete_first P docs).2 `sublist_of` docs.
Proof.
  induction docs as [|p docs IH]; [done|].
  cbn [delete_first]. destruct (decide (P p)).
  - cbn. by apply sublist_cons.
  - destruct (delete_first P docs) as [r docs']. cbn in *. by apply sublist_skip.
Qed.

Lemma StronglySorted_sublist {A} (R : relation A) (l1 l2 : list A) :
  l1 `sublist_of` l2 → StronglySorted R l2 → StronglySorted R l1.
Proof.
  induction 1 as [|x l1 l2 Hsub IH|x l1 l2 Hsub IH]; intros Hs.
  - done.
  - apply StronglySorted_cons in Hs as [Hall Hs]. constructor; [by apply IH|].
    apply Forall_forall. intros y Hy.
    eapply Forall_forall in Hall; [done|]. by eapply elem_of_sublist.
  - apply StronglySorted_cons in Hs as [_ Hs]. by apply IH.
Qed.

Lemma Forall_sublist {A} (P : A → Prop) (l1 l2 : list A) :
  l1 `sublist_of` l2 → Forall P l2 → Forall P l1.
Proof.
  intros Hsub Hall. apply Forall_forall. intros x Hx.
  eapply Forall_forall in Hall; [done|]. by eapply elem_of_sublist.
Qed.

(** What a handler does to the identities and tokens of the store. *)
Inductive keys_step (db db' : Db) : Prop :=
  | keys_same :
      keys db' = keys db → idCounter db' = idCounter db → keys_step db db'
  | keys_removed :
      keys db' `sublist_of` keys db → idCounter db' = idCounter db →
      keys_step db db'
  | keys_registered :
      keys db' = keys db ++ [(idCounter db, next_tokenNumber (collection db))] →
      idCounter db' = S (idCounter db) → keys_step db db'.

Lemma key_start (t : Z) (p : IPatient) : key (start t p) = key p.
Proof. done. Qed.
Lemma key_complete (t : Z) (p : IPatient) : key (complete t p) = key p.
Proof. done. Qed.
Lemma key_set_status (s : Status) (p : IPatient) : key (set_status s p) = key p.
Proof. done. Qed.
Lemma key_status_update (s : option Status) (p : IPatient) :
  key (status_update s p) = key p.
Proof. by destruct s. Qed.

Lemma handle_keys_step (r : Request) (db : Db) : keys_step db (handle r db).1.
Proof.
  destruct r as [env now body|id s|id| |tDone tStart]; cbn [handle].
  - unfold POST_patients.
    destruct (new_Patient now body db) as [patient|] eqn:Hnew.
    + apply new_Patient_Some in Hnew as (Hid & Htok & _).
      apply keys_registered; [|done].
      unfold keys. cbn. rewrite fmap_app. cbn. unfold key at 2.
      by rewrite Hid, Htok.
    + by apply keys_same.
  - destruct id as [id|raw]; [|by apply keys_same]. unfold PUT_status.
    pose proof (update_first_fmap key (has_id id) (status_update s)
                  (collection db) (key_status_update s)) as Hk.
    destruct (update_first (has_id id) (status_update s) (collection db)).
    by apply keys_same.
  - destruct id as [id|raw]; [|by apply keys_same]. unfold DELETE_patient.
    pose proof (delete_first_sublist (has_id id) (collection db)) as Hsub.
    destruct (delete_first (has_id id) (collection db)) as [[p|] docs].
    + apply keys_removed; [|done]. unfold keys. cbn. by apply fmap_sublist.
    + by apply keys_same.
  - apply keys_removed; [|done]. apply sublist_nil_l.
  - unfold START_CONSULTATION. cbn [fst].
    assert (keys (complete_current tDone db).2 = keys db
            ∧ idCounter (complete_current tDone db).2 = idCounter db)
      as [Hk1 Hc1].
    { unfold complete_current.
      pose proof (update_first_fmap key in_progress (complete tDone)
                    (collection db) (key_complete tDone)) as Hk.
      by destruct (update_first in_progress (complete tDone) (collection db)). }
    destruct (getSortedQueue (complete_current tDone db).2) as [|next rest].
    + by apply keys_same.
    + apply keys_same; [|done]. rewrite <- Hk1. unfold start_next, keys.
      cbn. apply update_first_fmap, key_start.
Qed.

Lemma keys_step_invariant (db db' : Db) :
  keys_step db db' → tokens_follow_creation db → tokens_follow_creation db'.
Proof.
  intros Hstep [Hsorted Hids]. unfold tokens_follow_creation.
  destruct Hstep as [Hk Hc|Hk Hc|Hk Hc]; rewrite Hc.
  - by rewrite Hk.
  - split; [by eapply StronglySorted_sublist|by eapply Forall_sublist].
  - rewrite Hk. split.
    + apply StronglySorted_app_2; [|done|repeat constructor].
      intros a b Ha Hb. apply list_elem_of_singleton in Hb as ->.
      eapply Forall_forall in Hids; [|exact Ha].
      apply list_elem_of_fmap in Ha as (p & -> & Hp).
      pose proof (next_tokenNumber_gt (collection db)) as Hgt.
      eapply Forall_forall in Hgt; [|exact Hp]. split; cbn in *; [lia|done].
    + apply Forall_app. split.
      * eapply Forall_impl; [exact Hids|]. intros k Hlt. cbn in Hlt. lia.
      * repeat constructor.
Qed.

Lemma run_snoc (rs : list Request) (r : Request) (db : Db) :
  run (rs ++ [r]) db = (handle r (run rs db)).1.
Proof. unfold run. by rewrite foldl_app. Qed.

Lemma run_invariant (rs : list Request) (db : Db) :
  tokens_follow_creation db → tokens_follow_creation (run rs db).
Proof.
  intros Hinv. induction rs as [|r rs IH] using rev_ind; [done|].
  rewrite run_snoc. eapply keys_step_invariant; [apply handle_keys_step|done].
Qed.

Lemma key_lt_tokens (ks : list (nat * Z)) :
  StronglySorted key_lt ks → NoDup ks.*2.
Proof.
  induction 1 as [|k ks _ IH Hall]; [constructor|].
  cbn. constructor; [|done].
  intros Hin. apply list_elem_of_fmap in Hin as (k' & Heq & Hk').
  eapply Forall_forall in Hall; [|exact Hk']. destruct Hall as [_ Hlt]. lia.
Qed.

Lemma key_lt_creation (ks : list (nat * Z)) (a b : nat * Z) :
  StronglySorted key_lt ks → a ∈ ks → b ∈ ks → a.1 < b.1 → (a.2 < b.2)%Z.
Proof.
  induction 1 as [|k ks _ IH Hall]; intros Ha Hb Hlt.
  - by apply elem_of_nil in Ha.
  - apply elem_of_cons in Ha as [->|Ha]; apply elem_of_cons in Hb as [->|Hb].
    + lia.
    + eapply Forall_forall in Hall; [|exact Hb]. by destruct Hall.
    + eapply Forall_forall in Hall; [|exact Ha]. destruct Hall. lia.
    + by apply IH.
Qed.

(** C8, as the registration implements it.  Along any run from a store whose
    tokens follow the creation order, the tokens of the stored documents stay
    distinct and strictly increasing with the creation order; a registration
    takes the largest stored token plus one (1 on an empty store), which is
    above every stored token; and no handler changes the token of a stored
    document.  The number is computed from the documents stored at that
    moment, not from a counter. *)
Theorem C8_token_assignment (db : Db) (rs : list Request) :
  tokens_follow_creation db →
  let db' := run rs db in
  tokens_follow_creation db'
  ∧ NoDup (tokenNumber <$> collection db')
  ∧ (∀ p q, p ∈ collection db' → q ∈ collection db' →
            _id p < _id q → (tokenNumber p < tokenNumber q)%Z)
  ∧ match findOne_tokenDesc (collection db') with
    | Some last =>
        last ∈ collection db'
        ∧ Forall (λ p, (tokenNumber p ≤ tokenNumber last)%Z) (collection db')
        ∧ next_tokenNumber (collection db') = (tokenNumber last + 1)%Z
    | None =>
        collection db' = [] ∧ next_tokenNumber (collection db') = 1%Z
    end
  ∧ (∀ env now body patient,
       new_Patient now body db' = Some patient →
       tokenNumber patient = next_tokenNumber (collection db')
       ∧ Forall (λ p, (tokenNumber p < tokenNumber patient)%Z) (collection db')
       ∧ collection (POST_patients env now body db').1.1
         = collection db' ++ [patient])
  ∧ (∀ r p', p' ∈ collection (handle r db').1 →
       (∃ p, p ∈ collection db' ∧ key p = key p')
       ∨ key p' = (idCounter db', next_tokenNumber (collection db'))).
Proof.
  intros Hinv db'.
  pose proof (run_invariant rs db Hinv) as Hinv'. fold db' in Hinv'.
  destruct Hinv' as [Hsorted Hids].
  split_and!.
  - done.
  - replace (tokenNumber <$> collection db') with (keys db').*2.
    + by apply key_lt_tokens.
    + unfold keys. rewrite <- list_fmap_compose. done.
  - intros p q Hp Hq Hlt.
    apply (key_lt_creation (keys db') (key p) (key q)); try done;
      by apply list_elem_of_fmap_2.
  - pose proof (findOne_tokenDesc_max (collection db')) as Hmax.
    destruct (findOne_tokenDesc (collection db')) as [last|] eqn:Hlast.
    + destruct Hmax as [Hin Hmax]. split_and!; [done..|].
      by apply next_tokenNumber_last.
    + split; [done|]. unfold next_tokenNumber. by rewrite Hlast.
  - intros env now body patient Hnew. split_and!.
    + by apply new_Patient_Some in Hnew as (_ & Htok & _).
    + apply new_Patient_Some in Hnew as (_ & -> & _).
      apply next_tokenNumber_gt.
    + unfold POST_patients. by rewrite Hnew.
  - intros r p' Hp'. apply (list_elem_of_fmap_2 key) in Hp'.
    fold (keys (handle r db').1) in Hp'.
    destruct (handle_keys_step r db') as [Hk _|Hk _|Hk _].
    + left. rewrite Hk in Hp'.
      apply list_elem_of_fmap in Hp' as (p & Heq & Hp). by exists p.
    + left. eapply elem_of_sublist in Hp'; [|exact Hk].
      apply list_elem_of_fmap in Hp' as (p & Heq & Hp). by exists p.
    + rewrite Hk in Hp'. apply elem_of_app in Hp' as [Hp'|Hp'].
      * left. apply list_elem_of_fmap in Hp' as (p & Heq & Hp). by exists p.
      * right. by apply list_elem_of_singleton in Hp'.
Qed.

Lemma C8_token_assignment_witness :
  tokens_follow_creation empty_db
  ∧ NoDup (tokenNumber <$> collection (run reuse_requests empty_db))
  ∧ tokens_follow_creation (run reuse_requests empty_db).
Proof.
  assert (tokens_follow_creation empty_db) as Hinv.
  { split; constructor. }
  destruct (C8_token_assignment empty_db reuse_requests Hinv)
    as (Hinv' & Hnd & _).
  split_and!; [exact Hinv|exact Hnd|exact Hinv'].
Defined.

(** The claim as written fails on a deletion: the token of the deleted
    entry [0] is given again to the entry [1] registered next. *)
Lemma C8_counterexample : ¬ tokens_never_reused reuse_requests.
Proof.
  intros Hnever.
  apply (Hnever 1 3
           (mkPatient 0 "Asha" "9000000007" None 1 BOOKED WAITING "General"
              1 None None)
           (mkPatient 1 "Asha" "9000000007" None 1 BOOKED WAITING "General"
              2 None None)).
  - vm_compute. left.
  - vm_compute. left.
  - cbn. lia.
  - reflexivity.
Qed.

(** ** Order of the sublists on the stores the handlers reach *)




(** * Further properties of the server *)

(** ** Where an entry lands in the composed queue *)

Lemma slot_merge_walkIn_index (j : nat) (b w : list IPatient) :
  j < length w →
  slot_merge b w !! ((3 * S j) `min` length b + j) = w !! j.
Proof.
  revert b w. induction j as [|j IH]; intros b w Hj.
  - destruct w as [|y w]; [cbn in Hj; lia|].
    rewrite slot_merge_step by (right; done).
    rewrite lookup_app_r; rewrite length_take; [|lia].
    replace ((3 * 1) `min` length b + 0 - 3 `min` length b) with 0 by lia.
    done.
  - destruct w as [|y w]; [cbn in Hj; lia|]. cbn [length] in Hj.
    rewrite slot_merge_step by (right; done).
    rewrite lookup_app_r; rewrite length_take; [|lia].
    rewrite lookup_app_r; rewrite length_take; cbn [length]; [|lia].
    cbn [skipn]. rewrite drop_0.
    replace ((3 * S (S j)) `min` length b + S j - 3 `min` length b
             - 1 `min` S (length w))
      with ((3 * S j) `min` length (drop 3 b) + j)
      by (rewrite length_drop; lia).
    rewrite IH by lia. done.
Qed.

Lemma slot_merge_booked_index (k : nat) (b w : list IPatient) :
  k < length b →
  slot_merge b w !! (k + (k / 3) `min` length w) = b !! k.
Proof.
  revert b w. induction k as [k IH] using lt_wf_ind. intros b w Hk.
  rewrite slot_merge_step by (left; intros ->; cbn in Hk; lia).
  destruct (decide (k < 3)) as [Hlt|Hge].
  - rewrite (Nat.div_small k 3) by done.
    rewrite lookup_app_l by (rewrite length_take; lia).
    rewrite Nat.min_0_l, Nat.add_0_r. by apply lookup_take_lt.
  - assert (k / 3 = S ((k - 3) / 3)) as Hdiv.
    { replace k with ((k - 3) + 1 * 3) at 1 by lia.
      rewrite Nat.div_add by lia. lia. }
    rewrite lookup_app_r; rewrite length_take; [|lia].
    destruct w as [|y w].
    + cbn [firstn skipn length app].
      replace (k + (k / 3) `min` 0 - 3 `min` length b)
        with ((k - 3) + ((k - 3) / 3) `min` length (@nil IPatient))
        by (cbn [length]; lia).
      rewrite IH by (rewrite ?length_drop; lia).
      rewrite lookup_drop. f_equal. lia.
    + rewrite lookup_app_r; rewrite length_take; cbn [length]; [|lia].
      cbn [skipn]. rewrite drop_0.
      replace (k + (k / 3) `min` S (length w) - 3 `min` length b
               - 1 `min` S (length w))
        with ((k - 3) + ((k - 3) / 3) `min` length w)
        by (rewrite Hdiv; lia).
      rewrite IH by (rewrite ?length_drop; lia).
      rewrite lookup_drop. f_equal. lia.
Qed.

(** X1. The walk-in entry number [j] (from 0) of the query result stands in
    the composed queue behind its [j] predecessors and behind the first
    [3 (j + 1)] booked entries, or all of them when there are fewer. *)
Theorem walkIn_place (db : Db) (j : nat) (p : IPatient) :
  let patients := find_active (collection db) in
  filter is_walkIn patients !! j = Some p →
  getSortedQueue db
    !! ((3 * S j) `min` length (filter is_booked patients) + j) = Some p.
Proof.
  intros patients Hj. unfold getSortedQueue. fold patients.
  rewrite slotQueue_spec, slot_merge_walkIn_index; [done|].
  by eapply lookup_lt_Some.
Qed.

Lemma walkIn_place_witness :
  name <$> filter is_walkIn (find_active (collection scenarioA)) !! 1
  = Some "W2"
  ∧ name <$> getSortedQueue scenarioA !! 5 = Some "W2".
Proof.
  split; [reflexivity|].
  pose proof (walkIn_place scenarioA 1
                (mkPatient 5 "W2" "9000000000" None 6 WALK_IN WAITING
                   "General" 0 None None) eq_refl) as Hplace.
  cbv zeta in Hplace.
  replace (length (filter is_booked (find_active (collection scenarioA))))
    with 4 in Hplace by reflexivity.
  change ((3 * 2) `min` 4 + 1) with 5 in Hplace. by rewrite Hplace.
Defined.

(** X2. The booked entry number [k] (from 0) of the query result stands in
    the composed queue behind its [k] predecessors and behind one walk-in
    entry for every three of them, as long as walk-in entries are left. *)
Theorem booked_place (db : Db) (k : nat) (p : IPatient) :
  let patients := find_active (collection db) in
  filter is_booked patients !! k = Some p →
  getSortedQueue db
    !! (k + (k / 3) `min` length (filter is_walkIn patients)) = Some p.
Proof.
  intros patients Hk. unfold getSortedQueue. fold patients.
  rewrite slotQueue_spec, slot_merge_booked_index; [done|].
  by eapply lookup_lt_Some.
Qed.

Lemma booked_place_witness :
  name <$> filter is_booked (find_active (collection scenarioA)) !! 3
  = Some "B4"
  ∧ name <$> getSortedQueue scenarioA !! 4 = Some "B4".
Proof.
  split; [reflexivity|].
  pose proof (booked_place scenarioA 3
                (mkPatient 3 "B4" "9000000000" None 4 BOOKED WAITING
                   "General" 0 None None) eq_refl) as Hplace.
  cbv zeta in Hplace.
  replace (length (filter is_walkIn (find_active (collection scenarioA))))
    with 2 in Hplace by reflexivity.
  change (3 + (3 / 3) `min` 2) with 4 in Hplace. by rewrite Hplace.
Defined.

(** ** Updates that keep the sort key, the kind and the activity *)

Lemma update_by_id_fmap (id : nat) (f : IPatient → IPatient) (docs : list IPatient) :
  NoDup (_id <$> docs) →
  (update_first (has_id id) f docs).2
  = (λ d, if decide (_id d = id) then f d else d) <$> docs.
Proof.
  induction docs as [|p docs IH]; intros Hnd; [done|].
  cbn [fmap list_fmap] in Hnd. apply NoDup_cons in Hnd as [Hp Hnd].
  cbn [update_first]. unfold has_id at 1.
  destruct (decide (_id p = id)) as [Heq|Hne].
  - cbn [snd fmap list_fmap]. rewrite decide_True by done. f_equal.
    symmetry. apply list_eq. intros i. rewrite list_lookup_fmap.
    destruct (docs !! i) as [d|] eqn:Hd; [|done]. cbn.
    rewrite decide_False; [done|]. intros Hid. apply Hp.
    rewrite Heq, <- Hid. apply list_elem_of_fmap_2.
    by eapply list_elem_of_lookup_2.
  - specialize (IH Hnd).
    destruct (update_first (has_id id) f docs) as [r docs'].
    cbn [snd fmap list_fmap] in *. rewrite decide_False by done. by rewrite IH.
Qed.

Section fmap_commutes.
Variable g : IPatient → IPatient.

Lemma filter_fmap_ext (P : IPatient → Prop) `{∀ p, Decision (P p)}
    (l : list IPatient) :
  Forall (λ x, P (g x) ↔ P x) l →
  filter P (g <$> l) = g <$> filter P l.
Proof.
  induction 1 as [|x l Hx _ IH]; [done|].
  cbn [fmap list_fmap]. rewrite !filter_cons.
  destruct (decide (P x)) as [HP|HP].
  - rewrite decide_True by by apply Hx. cbn [fmap list_fmap]. by rewrite IH.
  - rewrite decide_False by by rewrite Hx. done.
Qed.

Hypothesis g_createdAt : ∀ x, createdAt (g x) = createdAt x.
Hypothesis g_type : ∀ x, type (g x) = type x.

Lemma insert_createdAt_fmap (p : IPatient) (l : list IPatient) :
  insert_createdAt (g p) (g <$> l) = g <$> insert_createdAt p l.
Proof.
  induction l as [|q l IH]; [done|].
  cbn [fmap list_fmap insert_createdAt]. rewrite !g_createdAt.
  case_bool_decide; [done|]. cbn [fmap list_fmap]. by rewrite <- IH.
Qed.

Lemma sort_createdAt_fmap (l : list IPatient) :
  sort_createdAt (g <$> l) = g <$> sort_createdAt l.
Proof.
  induction l as [|p l IH]; [done|].
  cbn [fmap list_fmap sort_createdAt foldr].
  fold (sort_createdAt (g <$> l)). fold (sort_createdAt l).
  by rewrite IH, insert_createdAt_fmap.
Qed.

Lemma slot_merge_fmap (b w : list IPatient) :
  slot_merge (g <$> b) (g <$> w) = g <$> slot_merge b w.
Proof.
  revert b w.
  apply (slot_merge_ind
           (λ b w, slot_merge (g <$> b) (g <$> w) = g <$> slot_merge b w)).
  - by rewrite slot_merge_nil_nil.
  - intros b w Hne IH.
    rewrite (slot_merge_step b w Hne), !fmap_app, !fmap_take, <- IH, !fmap_drop.
    apply slot_merge_step.
    destruct Hne as [Hb|Hw]; [left|right]; intros Hnil;
      by apply fmap_nil_inv in Hnil.
Qed.

Lemma slotQueue_fmap (l : list IPatient) :
  slotQueue (g <$> l) = g <$> slotQueue l.
Proof.
  rewrite !slotQueue_spec, <- slot_merge_fmap.
  rewrite !filter_fmap_ext; [done|..];
    apply Forall_forall; intros x _; unfold is_walkIn, is_booked;
    by rewrite g_type.
Qed.

Lemma find_active_fmap (docs : list IPatient) :
  Forall (λ x, is_active (g x) ↔ is_active x) docs →
  find_active (g <$> docs) = g <$> find_active docs.
Proof.
  intros Hact. unfold find_active.
  by rewrite filter_fmap_ext, sort_createdAt_fmap.
Qed.
End fmap_commutes.

Lemma same_id_same_doc (docs : list IPatient) (x y : IPatient) :
  NoDup (_id <$> docs) → x ∈ docs → y ∈ docs → _id x = _id y → x = y.
Proof.
  intros Hnd Hx Hy Hid.
  apply list_elem_of_lookup in Hx as [i Hi].
  apply list_elem_of_lookup in Hy as [j Hj].
  assert (i = j) as ->; [|congruence].
  eapply (NoDup_lookup _ i j (_id x) Hnd); rewrite list_lookup_fmap.
  - by rewrite Hi.
  - by rewrite Hj, Hid.
Qed.

(** ** The queue across START_CONSULTATION *)

Section advance_queue.
Variables (tDone tStart : Z) (db : Db).
Hypothesis Hids : NoDup (_id <$> collection db).

Let db1 := (complete_current tDone db).2.
Let db2 := (START_CONSULTATION tDone tStart db).1.

Lemma started_collection (next : IPatient) (rest : list IPatient) :
  getSortedQueue db1 = next :: rest →
  collection db2
  = (λ d, if decide (_id d = _id next) then start tStart d else d)
      <$> collection db1.
Proof.
  intros Hq. unfold db2, START_CONSULTATION. cbn [fst]. fold db1.
  rewrite Hq. cbn [start_next collection with_collection].
  apply update_by_id_fmap. unfold db1. by rewrite complete_current_ids.
Qed.

Lemma started_queue (next : IPatient) (rest : list IPatient) :
  getSortedQueue db1 = next :: rest →
  getSortedQueue db2 = start tStart next :: rest.
Proof.
  intros Hq.
  assert (NoDup (_id <$> collection db1)) as Hids1
    by (unfold db1; by rewrite complete_current_ids).
  assert (next :: rest ≡ₚ filter is_active (collection db1)) as Hperm
    by by rewrite <- Hq, getSortedQueue_Permutation.
  assert (∀ x, x ∈ next :: rest → x ∈ collection db1 ∧ is_active x) as Hin.
  { intros x Hx. rewrite Hperm in Hx.
    apply list_elem_of_filter in Hx. tauto. }
  destruct (Hin next) as [Hnext Hact]; [left|].
  set (g := λ d, if decide (_id d = _id next) then start tStart d else d).
  unfold getSortedQueue at 1. rewrite (started_collection next rest Hq).
  fold g. rewrite (find_active_fmap g), (slotQueue_fmap g).
  - fold (getSortedQueue db1). rewrite Hq. cbn [fmap list_fmap].
    unfold g at 1. rewrite decide_True by done. f_equal.
    apply list_eq. intros i. rewrite list_lookup_fmap.
    destruct (rest !! i) as [d|] eqn:Hd; [|done]. cbn. unfold g.
    rewrite decide_False; [done|]. intros Hid.
    assert (d ∈ rest) as Hdr by by eapply list_elem_of_lookup_2.
    assert (d = next) as ->.
    { apply (same_id_same_doc (collection db1)); try done.
      apply Hin. by right. }
    assert (NoDup (next :: rest)) as Hnd.
    { rewrite Hperm. apply NoDup_filter.
      by apply (NoDup_fmap_1 _id). }
    by apply NoDup_cons in Hnd as [? _].
  - intros x. unfold g. by destruct (decide _).
  - intros x. unfold g. by destruct (decide _).
  - apply Forall_forall. intros x Hx. unfold g.
    destruct (decide (_id x = _id next)) as [Hid|]; [|done].
    assert (x = next) as -> by by apply (same_id_same_doc (collection db1)).
    split; [done|]. intros _. by right.
Qed.

Lemma advance_queue_length :
  length (getSortedQueue db2) = length (getSortedQueue db1).
Proof.
  destruct (getSortedQueue db1) as [|next rest] eqn:Hq.
  - destruct (start_next_nil tDone tStart db Hq) as [Heq _].
    fold db1 db2 in Heq. by rewrite Heq, Hq.
  - by rewrite (started_queue next rest Hq).
Qed.
End advance_queue.

(** X3. START_CONSULTATION on a store with distinct ids moves no entry: the
    queue of the final store is the queue composed after the completion
    step, with its head started. *)
Theorem advance_keeps_order (tDone tStart : Z) (db : Db) :
  NoDup (_id <$> collection db) →
  getSortedQueue (START_CONSULTATION tDone tStart db).1
  = match getSortedQueue (complete_current tDone db).2 with
    | next :: rest => start tStart next :: rest
    | [] => []
    end.
Proof.
  intros Hids.
  destruct (getSortedQueue (complete_current tDone db).2)
    as [|next rest] eqn:Hq.
  - destruct (start_next_nil tDone tStart db Hq) as [Heq _].
    by rewrite Heq, Hq.
  - by apply started_queue.
Qed.

Lemma advance_keeps_order_witness :
  name <$> getSortedQueue (START_CONSULTATION 20 21 scenarioC).1
  = ["B2"; "B3"; "B4"; "W1"; "W2"].
Proof.
  assert (NoDup (_id <$> collection scenarioC)) as Hids.
  { apply (bool_decide_unpack _). vm_compute. exact I. }
  rewrite (advance_keeps_order 20 21 scenarioC Hids). reflexivity.
Defined.

Lemma started_only_head (tDone tStart : Z) (db : Db)
    (next : IPatient) (rest : list IPatient) :
  NoDup (_id <$> collection db) →
  length (filter in_progress (collection db)) ≤ 1 →
  getSortedQueue (complete_current tDone db).2 = next :: rest →
  Forall (λ p, ¬ in_progress p) rest.
Proof.
  intros Hids Hone Hq.
  pose proof (started_queue tDone tStart db Hids next rest Hq) as Hq2.
  pose proof (advance_in_progress tDone tStart db Hids Hone) as Hin.
  rewrite Hq in Hin. cbn [firstn fmap list_fmap] in Hin.
  pose proof (getSortedQueue_Permutation (START_CONSULTATION tDone tStart db).1)
    as Hperm.
  rewrite Hq2 in Hperm.
  assert (NoDup (start tStart next :: rest)) as Hnd.
  { rewrite Hperm. apply NoDup_filter. apply (NoDup_fmap_1 _id).
    by rewrite advance_ids. }
  apply NoDup_cons in Hnd as [Hnotin _].
  apply Forall_forall. intros p Hp Hprog. apply Hnotin.
  assert (p ∈ filter in_progress
                (collection (START_CONSULTATION tDone tStart db).1)) as Hp'.
  { apply list_elem_of_filter. split; [done|].
    assert (p ∈ start tStart next :: rest) as Hp2 by by right.
    rewrite Hperm in Hp2. by apply list_elem_of_filter in Hp2 as [_ ?]. }
  rewrite Hin in Hp'. by apply list_elem_of_singleton in Hp' as <-.
Qed.

(** X4. After START_CONSULTATION on a store with distinct ids and at most one
    entry in progress, every entry of the broadcast queue carries its index
    as position and fifteen times its index as estimated wait, and the entry
    in progress is the one at index 0. *)
Theorem advance_positions (tDone tStart : Z) (db : Db) (i : nat)
    (item : IQueueItem) :
  NoDup (_id <$> collection db) →
  length (filter in_progress (collection db)) ≤ 1 →
  calculateWaitTimes (getSortedQueue (START_CONSULTATION tDone tStart db).1) !! i
  = Some item →
  position item = i
  ∧ estimatedWaitTime item = i * 15
  ∧ (status (patientData item) = IN_PROGRESS ↔ i = 0).
Proof.
  intros Hids Hone Hitem.
  rewrite (advance_keeps_order tDone tStart db Hids) in Hitem.
  destruct (getSortedQueue (complete_current tDone db).2)
    as [|next rest] eqn:Hq; [done|].
  pose proof (started_only_head tDone tStart db next rest Hids Hone Hq) as Hrest.
  destruct ((start tStart next :: rest) !! i) as [p|] eqn:Hp.
  - rewrite (calculateWaitTimes_lookup _ i p Hp) in Hitem.
    injection Hitem as <-. cbn [position estimatedWaitTime patientData].
    destruct i as [|i].
    + injection Hp as <-. done.
    + cbn in Hp. eapply Forall_forall in Hrest;
        [|by eapply list_elem_of_lookup_2].
      rewrite bool_decide_eq_false_2 by done. split_and!; [done..|].
      split; [done|lia].
  - unfold calculateWaitTimes in Hitem.
    by rewrite list_lookup_imap, Hp in Hitem.
Qed.

Lemma advance_positions_witness :
  ∃ item,
    calculateWaitTimes (getSortedQueue (START_CONSULTATION 20 21 scenarioC).1)
      !! 2 = Some item
    ∧ position item = 2 ∧ estimatedWaitTime item = 30.
Proof.
  assert (NoDup (_id <$> collection scenarioC)) as Hids.
  { apply (bool_decide_unpack _). vm_compute. exact I. }
  assert (length (filter in_progress (collection scenarioC)) ≤ 1) as Hone.
  { vm_compute. lia. }
  destruct (calculateWaitTimes
              (getSortedQueue (START_CONSULTATION 20 21 scenarioC).1) !! 2)
    as [item|] eqn:Hitem; [|vm_compute in Hitem; discriminate Hitem].
  exists item. split; [reflexivity|].
  destruct (advance_positions 20 21 scenarioC 2 item Hids Hone Hitem)
    as (Hpos & Hwait & _).
  split; [exact Hpos|exact Hwait].
Defined.

(** ** Serving until the queue is empty *)

Lemma in_progress_le_active (docs : list IPatient) :
  length (filter in_progress docs) ≤ length (filter is_active docs).
Proof.
  induction docs as [|p docs IH]; [done|]. rewrite !filter_cons.
  destruct (decide (in_progress p)) as [Hp|Hp].
  - rewrite decide_True by by right. cbn [length]. lia.
  - destruct (decide (is_active p)); cbn [length]; lia.
Qed.

Lemma complete_current_active (t : Z) (docs : list IPatient) :
  length (filter is_active (update_first in_progress (complete t) docs).2)
  = length (filter is_active docs) - 1 `min` length (filter in_progress docs).
Proof.
  induction docs as [|p docs IH]; [done|].
  cbn [update_first]. destruct (decide (in_progress p)) as [Hp|Hp].
  - cbn [snd]. rewrite !filter_cons.
    rewrite (decide_True (P := in_progress p)) by done.
    rewrite (decide_True (P := is_active p)) by by right.
    rewrite decide_False; [cbn [length]; lia|].
    intros [Hs|Hs]; discriminate Hs.
  - destruct (update_first in_progress (complete t) docs) as [r docs'].
    cbn [snd] in *. rewrite !filter_cons.
    rewrite (decide_False (P := in_progress p)) by done.
    pose proof (in_progress_le_active docs).
    destruct (decide (is_active p)); cbn [length]; lia.
Qed.

Lemma queue_length (db : Db) :
  length (getSortedQueue db) = length (filter is_active (collection db)).
Proof. by rewrite getSortedQueue_Permutation. Qed.

(** X5. START_CONSULTATION on a store with distinct ids shortens the queue by
    exactly one entry when an entry is in progress, and keeps its length when
    none is. *)
Theorem advance_shortens (tDone tStart : Z) (db : Db) :
  NoDup (_id <$> collection db) →
  length (getSortedQueue (START_CONSULTATION tDone tStart db).1)
  = length (getSortedQueue db)
    - 1 `min` length (filter in_progress (collection db)).
Proof.
  intros Hids. rewrite advance_queue_length by done.
  rewrite !queue_length, complete_current_collection.
  apply complete_current_active.
Qed.

Lemma advance_shortens_witness :
  length (getSortedQueue (START_CONSULTATION 20 21 scenarioC).1) = 5.
Proof.
  assert (NoDup (_id <$> collection scenarioC)) as Hids.
  { apply (bool_decide_unpack _). vm_compute. exact I. }
  rewrite (advance_shortens 20 21 scenarioC Hids). reflexivity.
Defined.

Lemma advance_leaves_in_progress (tDone tStart : Z) (db : Db) :
  NoDup (_id <$> collection db) →
  getSortedQueue (START_CONSULTATION tDone tStart db).1 = []
  ∨ filter in_progress (collection (START_CONSULTATION tDone tStart db).1) ≠ [].
Proof.
  intros Hids. rewrite advance_keeps_order by done.
  destruct (getSortedQueue (complete_current tDone db).2)
    as [|next rest] eqn:Hq; [by left|right].
  destruct (start_next_cons tDone tStart db Hids next rest Hq)
    as (i & Hi & _ & Hdb2).
  intros Hnil. apply (filter_nil_not_elem_of in_progress _ (start tStart next)) in Hnil.
  - apply Hnil. rewrite Hdb2. apply list_elem_of_lookup. exists i.
    apply list_lookup_insert_eq. by eapply lookup_lt_Some.
  - done.
Qed.

Lemma advance_all_cons (call : Z * Z) (calls : list (Z * Z)) (db : Db) :
  advance_all (call :: calls) db
  = advance_all calls (START_CONSULTATION call.1 call.2 db).1.
Proof. done. Qed.

Lemma advance_all_served (calls : list (Z * Z)) (db : Db) :
  NoDup (_id <$> collection db) →
  getSortedQueue db = [] ∨ filter in_progress (collection db) ≠ [] →
  length (getSortedQueue (advance_all calls db))
  = length (getSortedQueue db) - length calls.
Proof.
  revert db. induction calls as [|[tDone tStart] calls IH]; intros db Hids Hserving.
  - cbn. lia.
  - rewrite advance_all_cons. cbn [fst snd].
    rewrite IH; [|by rewrite advance_ids|by apply advance_leaves_in_progress].
    rewrite advance_shortens by done. cbn [length].
    destruct Hserving as [Hnil|Hsome].
    + rewrite Hnil. cbn [length]. lia.
    + destruct (filter in_progress (collection db)); [done|]. cbn [length]. lia.
Qed.

(** X6. On a store with distinct ids, more START_CONSULTATION events than the
    queue has entries empty the queue. *)
Theorem advance_drains (calls : list (Z * Z)) (db : Db) :
  NoDup (_id <$> collection db) →
  length (getSortedQueue db) < length calls →
  getSortedQueue (advance_all calls db) = [].
Proof.
  intros Hids Hlen. destruct calls as [|[tDone tStart] calls]; [cbn in Hlen; lia|].
  apply length_zero_nil. rewrite advance_all_cons. cbn [fst snd length] in *.
  rewrite advance_all_served;
    [|by rewrite advance_ids|by apply advance_leaves_in_progress].
  rewrite advance_shortens by done. lia.
Qed.

Lemma advance_drains_witness :
  getSortedQueue
    (advance_all [(1, 2); (3, 4); (5, 6); (7, 8); (9, 10); (11, 12); (13, 14)]%Z
       scenarioA) = [].
Proof.
  apply advance_drains.
  - apply (bool_decide_unpack _). vm_compute. exact I.
  - vm_compute. lia.
Defined.

Lemma update_first_keeps (P : IPatient → Prop) `{∀ p, Decision (P p)}
    (f : IPatient → IPatient) (docs : list IPatient) (p : IPatient) :
  ¬ P p → p ∈ docs → p ∈ (update_first P f docs).2.
Proof.
  intros HP. induction docs as [|d docs IH]; intros Hin; [done|].
  cbn [update_first]. destruct (decide (P d)) as [Hd|Hd].
  - cbn [snd]. apply elem_of_cons in Hin as [->|Hin]; [done|by right].
  - destruct (update_first P f docs) as [r docs']. cbn [snd] in *.
    apply elem_of_cons in Hin as [->|Hin]; [left|right; by apply IH].
Qed.

Lemma advance_keeps_done (tDone tStart : Z) (db : Db) (p : IPatient) :
  NoDup (_id <$> collection db) →
  p ∈ collection db → status p = DONE →
  p ∈ collection (START_CONSULTATION tDone tStart db).1.
Proof.
  intros Hids Hp Hdone.
  assert (p ∈ collection (complete_current tDone db).2) as Hp1.
  { rewrite complete_current_collection.
    apply update_first_keeps; [|done]. unfold in_progress. congruence. }
  destruct (getSortedQueue (complete_current tDone db).2)
    as [|next rest] eqn:Hq.
  - destruct (start_next_nil tDone tStart db Hq) as [-> _]. done.
  - destruct (start_next_cons tDone tStart db Hids next rest Hq)
      as (i & Hi & Hact & _).
    rewrite (started_collection tDone tStart db Hids next rest Hq).
    apply list_elem_of_fmap. exists p. split; [|done].
    rewrite decide_False; [done|]. intros Hid.
    assert (p = next) as ->.
    { apply (same_id_same_doc (collection (complete_current tDone db).2));
        try done.
      - by rewrite complete_current_ids.
      - by eapply list_elem_of_lookup_2. }
    destruct Hact as [Hs|Hs]; congruence.
Qed.

(** X7. On a store with distinct ids, START_CONSULTATION events never touch
    a document that is DONE: it stays in the store as it is, with its status
    and its timestamps. *)
Theorem done_is_final (calls : list (Z * Z)) (db : Db) (p : IPatient) :
  NoDup (_id <$> collection db) →
  p ∈ collection db → status p = DONE →
  p ∈ collection (advance_all calls db).
Proof.
  revert db. induction calls as [|[tDone tStart] calls IH]; intros db Hids Hp Hdone.
  - done.
  - rewrite advance_all_cons. cbn [fst snd]. apply IH; [|by apply advance_keeps_done|done].
    by rewrite advance_ids.
Qed.

Lemma done_is_final_witness :
  complete 20 (start 11 (mkPatient 0 "B1" "9000000000" None 1 BOOKED WAITING
                           "General" 0 None None))
  ∈ collection (advance_all [(30, 31); (40, 41)]%Z
                  (START_CONSULTATION 20 21 scenarioC).1).
Proof.
  apply done_is_final.
  - apply (bool_decide_unpack _). vm_compute. exact I.
  - vm_compute. left.
  - reflexivity.
Defined.

(** ** The count of the day *)

Lemma complete_current_done (s e t : Z) (docs : list IPatient) :
  length (filter (done_between s e)
            (update_first in_progress (complete t) docs).2)
  = length (filter (done_between s e) docs)
    + (if bool_decide (s ≤ t < e)%Z
       then 1 `min` length (filter in_progress docs) else 0).
Proof.
  induction docs as [|p docs IH]; [by case_bool_decide|].
  cbn [update_first]. destruct (decide (in_progress p)) as [Hp|Hp].
  - cbn [snd]. rewrite !filter_cons.
    rewrite (decide_True (P := in_progress p)) by done.
    rewrite (decide_False (P := done_between s e p))
      by (intros [Hs _]; unfold in_progress in Hp; congruence).
    case_bool_decide as Hwin.
    + rewrite decide_True by done. cbn [length]. lia.
    + rewrite decide_False; [lia|]. intros [_ Ht]. by cbn in Ht.
  - destruct (update_first in_progress (complete t) docs) as [r docs'].
    cbn [snd] in *. rewrite !filter_cons.
    rewrite (decide_False (P := in_progress p)) by done.
    destruct (decide (done_between s e p)); cbn [length]; rewrite IH; lia.
Qed.

Lemma length_filter_fmap_ext (g : IPatient → IPatient) (P : IPatient → Prop)
    `{∀ p, Decision (P p)} (l : list IPatient) :
  Forall (λ x, P (g x) ↔ P x) l →
  length (filter P (g <$> l)) = length (filter P l).
Proof. intros Hg. by rewrite (filter_fmap_ext g P l Hg), length_fmap. Qed.

(** X8. START_CONSULTATION on a store with distinct ids adds one to the
    count of the day when it completes an entry at an instant of that day,
    and leaves the count as it is otherwise. *)
Theorem done_today_advance (s e tDone tStart : Z) (db : Db) :
  NoDup (_id <$> collection db) →
  done_today s e (START_CONSULTATION tDone tStart db).1
  = done_today s e db
    + (if bool_decide (s ≤ tDone < e)%Z
       then 1 `min` length (filter in_progress (collection db)) else 0).
Proof.
  intros Hids. unfold done_today.
  rewrite <- complete_current_done, <- complete_current_collection.
  destruct (getSortedQueue (complete_current tDone db).2)
    as [|next rest] eqn:Hq.
  - destruct (start_next_nil tDone tStart db Hq) as [-> _]. done.
  - destruct (start_next_cons tDone tStart db Hids next rest Hq)
      as (i & Hi & Hact & _).
    rewrite (started_collection tDone tStart db Hids next rest Hq).
    apply length_filter_fmap_ext. apply Forall_forall. intros x Hx.
    destruct (decide (_id x = _id next)) as [Hid|]; [|done].
    assert (x = next) as ->.
    { apply (same_id_same_doc (collection (complete_current tDone db).2));
        try done.
      - by rewrite complete_current_ids.
      - by eapply list_elem_of_lookup_2. }
    unfold done_between. cbn [status start].
    split; intros [Hs _]; [discriminate Hs|].
    destruct Hact as [Ha|Ha]; congruence.
Qed.

Lemma done_today_advance_witness :
  done_today 0 100 (START_CONSULTATION 20 21 scenarioC).1 = 1
  ∧ done_today 0 100 (START_CONSULTATION 200 201 scenarioC).1 = 0.
Proof.
  assert (NoDup (_id <$> collection scenarioC)) as Hids.
  { apply (bool_decide_unpack _). vm_compute. exact I. }
  rewrite !(done_today_advance 0 100 _ _ scenarioC Hids).
  split; reflexivity.
Defined.

(** X9. A status edit does not change the count of the day when the target
    has no [completedAt], whatever status the body carries: an entry set to
    DONE by an edit is not counted. *)
Theorem done_today_edit (s e : Z) (id : nat) (st : option Status) (db : Db) :
  NoDup (_id <$> collection db) →
  Forall (λ p, _id p = id → completedAt p = None) (collection db) →
  done_today s e (PUT_status (ObjectId id) st db).1.1 = done_today s e db.
Proof.
  intros Hids Hnone. unfold done_today, PUT_status.
  pose proof (update_by_id_fmap id (status_update st) (collection db) Hids)
    as Hg.
  destruct (update_first (has_id id) (status_update st) (collection db))
    as [r docs]. cbn [fst snd collection with_collection] in *. subst docs.
  apply length_filter_fmap_ext.
  eapply Forall_impl; [exact Hnone|]. intros x Hx. cbn beta.
  destruct (decide (_id x = id)) as [Hid|]; [|done].
  unfold done_between. destruct st as [st|]; [|done].
  cbn [completedAt status_update set_status]. rewrite (Hx Hid). tauto.
Qed.

Lemma done_today_edit_witness :
  done_today 0 100 (PUT_status (ObjectId 3) (Some DONE) scenarioC).1.1 = 0
  ∧ status <$> collection (PUT_status (ObjectId 3) (Some DONE) scenarioC).1.1
               !! 3 = Some DONE.
Proof.
  split; [|reflexivity].
  rewrite (done_today_edit 0 100 3 (Some DONE) scenarioC); [reflexivity| |].
  - apply (bool_decide_unpack _). vm_compute. exact I.
  - vm_compute. repeat constructor.
Defined.

(** ** Registration *)

Lemma insert_createdAt_snoc (x p : IPatient) (l : list IPatient) :
  (createdAt x ≤ createdAt p)%Z →
  insert_createdAt x (l ++ [p]) = insert_createdAt x l ++ [p].
Proof.
  intros Hle. induction l as [|q l IH]; cbn [app insert_createdAt].
  - by rewrite bool_decide_eq_true_2.
  - case_bool_decide; [done|]. by rewrite IH.
Qed.

Lemma sort_createdAt_snoc (p : IPatient) (l : list IPatient) :
  Forall (λ x, (createdAt x ≤ createdAt p)%Z) l →
  sort_createdAt (l ++ [p]) = sort_createdAt l ++ [p].
Proof.
  induction 1 as [|x l Hx _ IH]; [done|].
  cbn [app sort_createdAt foldr].
  fold (sort_createdAt (l ++ [p])). fold (sort_createdAt l).
  by rewrite IH, insert_createdAt_snoc.
Qed.

Lemma find_active_snoc (p : IPatient) (docs : list IPatient) :
  is_active p →
  Forall (λ x, (createdAt x ≤ createdAt p)%Z) docs →
  find_active (docs ++ [p]) = find_active docs ++ [p].
Proof.
  intros Hact Hle. unfold find_active.
  rewrite filter_app, (filter_cons_True is_active p [] Hact), filter_nil.
  apply sort_createdAt_snoc.
  apply Forall_forall. intros x Hx. apply list_elem_of_filter in Hx as [_ Hx].
  by eapply Forall_forall in Hle.
Qed.

(** X10. A registration made when the clock is not behind the [createdAt] of
    the stored documents joins the query result at its end, whatever the
    tokens are; in the composed queue a booked entry then stands behind all
    booked entries and one walk-in entry for every three of them, and a
    walk-in entry behind all walk-in entries and at most three booked entries
    for each of them and for itself. *)
Theorem register_joins_back (env : Env) (now : Z) (body : RegisterBody)
    (db : Db) (patient : IPatient) :
  new_Patient now body db = Some patient →
  Forall (λ p, (createdAt p ≤ now)%Z) (collection db) →
  let db1 := (POST_patients env now body db).1.1 in
  let b := filter is_booked (find_active (collection db)) in
  let w := filter is_walkIn (find_active (collection db)) in
  find_active (collection db1) = find_active (collection db) ++ [patient]
  ∧ getSortedQueue db1
      !! (match type patient with
          | BOOKED => length b + (length b / 3) `min` length w
          | WALK_IN => (3 * S (length w)) `min` length b + length w
          end) = Some patient.
Proof.
  intros Hnew Hclock db1 b w.
  pose proof (new_Patient_Some now body db patient Hnew)
    as (_ & _ & Hwaiting & Hnow).
  assert (find_active (collection db1)
          = find_active (collection db) ++ [patient]) as Hfind.
  { unfold db1, POST_patients. rewrite Hnew. cbn [fst collection].
    apply find_active_snoc; [by left|]. by rewrite Hnow. }
  split; [done|].
  unfold getSortedQueue. rewrite slotQueue_spec, Hfind, !filter_app.
  fold b w. rewrite !filter_cons, !filter_nil.
  destruct (type patient) eqn:Hty.
  - rewrite (decide_True (P := is_booked patient)) by done.
    rewrite (decide_False (P := is_walkIn patient))
      by (unfold is_walkIn; congruence).
    rewrite app_nil_r, slot_merge_booked_index.
    + by rewrite lookup_app_r, Nat.sub_diag.
    + rewrite length_app. cbn [length]. lia.
  - rewrite (decide_False (P := is_booked patient))
      by (unfold is_booked; congruence).
    rewrite (decide_True (P := is_walkIn patient)) by done.
    rewrite app_nil_r, slot_merge_walkIn_index.
    + by rewrite lookup_app_r, Nat.sub_diag.
    + rewrite length_app. cbn [length]. lia.
Qed.

Lemma register_joins_back_witness :
  name <$> getSortedQueue (POST_patients sample_env 7 sample_body scenarioA).1.1
             !! 5 = Some "Asha".
Proof.
  assert (Forall (λ p, (createdAt p ≤ 7)%Z) (collection scenarioA)) as Hclock.
  { vm_compute. repeat constructor; discriminate. }
  destruct (register_joins_back sample_env 7 sample_body scenarioA
              (mkPatient 6 "Asha" "9000000007" None 7 BOOKED WAITING
                 "General" 7 None None) eq_refl Hclock) as [_ Hplace].
  cbn [type] in Hplace.
  replace (length (filter is_booked (find_active (collection scenarioA))))
    with 4 in Hplace by reflexivity.
  replace (length (filter is_walkIn (find_active (collection scenarioA))))
    with 2 in Hplace by reflexivity.
  change (4 + (4 / 3) `min` 2) with 5 in Hplace. by rewrite Hplace.
Defined.

Lemma new_Patient_invalid (now : Z) (body : RegisterBody) (db : Db) :
  required (body_name body) = None
  ∨ required (body_phone body) = None
  ∨ cast_type (body_type body) = None →
  new_Patient now body db = None.
Proof.
  unfold new_Patient. intros [Hn|[Hph|Hty]].
  - by rewrite Hn.
  - rewrite Hph. by destruct (required (body_name body)).
  - rewrite Hty. by destruct (required (body_name body)),
      (required (body_phone body)).
Qed.

(** X11. A registration whose name or phone is missing or empty, or whose
    type is outside the enum, is answered 400 with the message of the
    ValidationError, which holds one part for each failing path and no
    other; the store is unchanged and nothing is emitted. *)
Theorem registration_rejected (env : Env) (now : Z) (body : RegisterBody)
    (db : Db) :
  required (body_name body) = None
  ∨ required (body_phone body) = None
  ∨ cast_type (body_type body) = None →
  POST_patients env now body db
  = (db, [],
     mkResponse 400
       (JError ("Patient validation failed: "
                +:+ join_errors (path_errors body))))
  ∧ (required (body_name body) = None →
     "name: Path `name` is required." ∈ path_errors body)
  ∧ (required (body_phone body) = None →
     "phone: Path `phone` is required." ∈ path_errors body)
  ∧ (cast_type (body_type body) = None →
     ∃ v, body_type body = Some v
          ∧ "type: `" +:+ v +:+ "` is not a valid enum value for path `type`."
            ∈ path_errors body)
  ∧ length (path_errors body)
    = (if required (body_name body) is Some _ then 0 else 1)
      + (if required (body_phone body) is Some _ then 0 else 1)
      + (if cast_type (body_type body) is Some _ then 0 else 1).
Proof.
  intros Hinvalid.
  assert (path_errors body ≠ []) as Hsome.
  { unfold path_errors. destruct Hinvalid as [Hn|[Hph|Hty]].
    - by rewrite Hn.
    - rewrite Hph. by destruct (required (body_name body)).
    - rewrite Hty. destruct (body_type body) as [v|]; [|done].
      by destruct (required (body_name body)), (required (body_phone body)). }
  split_and!.
  - unfold POST_patients. rewrite (new_Patient_invalid now body db Hinvalid).
    unfold save_error. by destruct (path_errors body).
  - intros Hn. unfold path_errors. rewrite Hn. left.
  - intros Hph. unfold path_errors. rewrite Hph.
    apply elem_of_app. right. left.
  - intros Hty. destruct (body_type body) as [v|] eqn:Hv; [|done].
    exists v. split; [done|]. unfold path_errors. rewrite Hv, Hty.
    apply elem_of_app. right. apply elem_of_app. right. left.
  - unfold path_errors. rewrite !length_app.
    destruct (required (body_name body)), (required (body_phone body)),
      (cast_type (body_type body)) eqn:Hty, (body_type body); try done.
Qed.

Lemma registration_rejected_witness :
  POST_patients sample_env 7
    (mkBody None (Some "9000000007") (Some "BOOKED")) scenarioA
  = (scenarioA, [],
     mkResponse 400
       (JError "Patient validation failed: name: Path `name` is required.")).
Proof.
  destruct (registration_rejected sample_env 7
              (mkBody None (Some "9000000007") (Some "BOOKED")) scenarioA)
    as [Hpost _]; [by left|].
  rewrite Hpost. reflexivity.
Defined.

(** X12. The entry a registration has just created is the one GET
    /api/patients/:id finds under its id, with the tracking link of the
    registration's answer, when the ids of the store were issued by the
    generator. *)
Theorem register_then_get (env : Env) (now : Z) (body : RegisterBody)
    (db : Db) (patient : IPatient) :
  new_Patient now body db = Some patient →
  Forall (λ p, _id p < idCounter db) (collection db) →
  GET_patient env (ObjectId (_id patient)) (POST_patients env now body db).1.1
  = mkResponse 200
      (JTracked patient (generateTrackingLink env (tokenNumber patient)))
  ∧ json (POST_patients env now body db).2
    = JCreated patient (generateTrackingLink env (tokenNumber patient))
        (sendWhatsAppMessage env (phone patient) (tokenNumber patient)
           (name patient)).
Proof.
  intros Hnew Hids.
  pose proof (new_Patient_Some now body db patient Hnew) as (Hid & _).
  unfold POST_patients. rewrite Hnew. cbn [fst snd json collection].
  split; [|done]. unfold GET_patient. cbn [collection].
  assert (list_find (has_id (_id patient)) (collection db ++ [patient])
          = Some (length (collection db), patient)) as ->; [|done].
  apply list_find_Some. split_and!.
  - by rewrite lookup_app_r, Nat.sub_diag.
  - done.
  - intros j y Hy Hlt Hhas. rewrite lookup_app_l in Hy by done.
    eapply Forall_forall in Hids; [|by eapply list_elem_of_lookup_2].
    unfold has_id in Hhas. lia.
Qed.

Lemma register_then_get_witness :
  statusCode
    (GET_patient sample_env (ObjectId 6)
       (POST_patients sample_env 7 sample_body scenarioA).1.1) = 200.
Proof.
  assert (Forall (λ p, _id p < idCounter scenarioA) (collection scenarioA))
    as Hids.
  { vm_compute. repeat constructor. }
  destruct (register_then_get sample_env 7 sample_body scenarioA
              (mkPatient 6 "Asha" "9000000007" None 7 BOOKED WAITING
                 "General" 7 None None) eq_refl Hids) as [Hget _].
  cbn [_id] in Hget. by rewrite Hget.
Defined.

(** ** Deletion and status edits *)

Lemma delete_by_id (id : nat) (docs : list IPatient) :
  NoDup (_id <$> docs) →
  (delete_first (has_id id) docs).2 = filter (λ d, _id d ≠ id) docs
  ∧ (∀ p, p ∈ docs → _id p = id →
          (delete_first (has_id id) docs).1 = Some p).
Proof.
  induction docs as [|d docs IH]; intros Hnd.
  { split; [done|]. intros p Hp. by apply elem_of_nil in Hp. }
  cbn [fmap list_fmap] in Hnd. apply NoDup_cons in Hnd as [Hd Hnd].
  destruct (IH Hnd) as [IH2 IH1].
  cbn [delete_first]. rewrite filter_cons.
  destruct (decide (has_id id d)) as [Heq|Hne]; unfold has_id in *.
  - rewrite decide_False by tauto. cbn [fst snd]. split.
    + symmetry. apply (filter_all (λ d, _id d ≠ id)).
      apply Forall_forall. intros x Hx Hid. apply Hd.
      rewrite Heq, <- Hid. by apply list_elem_of_fmap_2.
    + intros p Hp Hid. apply elem_of_cons in Hp as [->|Hp]; [done|].
      destruct Hd. rewrite Heq, <- Hid. by apply list_elem_of_fmap_2.
  - rewrite decide_True by done.
    destruct (delete_first (λ p, _id p = id) docs) as [r docs'].
    cbn [fst snd] in *. split; [by rewrite IH2|].
    intros p Hp Hid. apply elem_of_cons in Hp as [->|Hp]; [done|].
    by apply IH1.
Qed.

(** X13. Deleting a stored entry, on a store with distinct ids, removes that
    document and no other, answers 200 and broadcasts the queue without it:
    the queue keeps exactly its other entries, and the id no longer
    resolves. *)
Theorem delete_removes_target (env : Env) (db : Db) (p : IPatient) :
  NoDup (_id <$> collection db) →
  p ∈ collection db →
  let db1 := (DELETE_patient (ObjectId (_id p)) db).1.1 in
  collection db1 = filter (λ d, _id d ≠ _id p) (collection db)
  ∧ (DELETE_patient (ObjectId (_id p)) db).2
    = mkResponse 200 (JMessage "Patient removed successfully")
  ∧ published (DELETE_patient (ObjectId (_id p)) db).1.2
    = [calculateWaitTimes (getSortedQueue db1)]
  ∧ (∀ q, q ∈ getSortedQueue db1 ↔ q ∈ getSortedQueue db ∧ q ≠ p)
  ∧ GET_patient env (ObjectId (_id p)) db1 = mkResponse 404 (JError "Patient not found").
Proof.
  intros Hids Hp db1.
  destruct (delete_by_id (_id p) (collection db) Hids) as [Hdocs Hfound].
  specialize (Hfound p Hp eq_refl).
  assert (DELETE_patient (ObjectId (_id p)) db
          = (with_collection db (filter (λ d, _id d ≠ _id p) (collection db)),
             [io_QUEUE_UPDATE
                (calculateWaitTimes
                   (getSortedQueue
                      (with_collection db
                         (filter (λ d, _id d ≠ _id p) (collection db)))))],
             mkResponse 200 (JMessage "Patient removed successfully")))
    as Hdel.
  { unfold DELETE_patient.
    destruct (delete_first (has_id (_id p)) (collection db)) as [r docs].
    cbn [fst snd] in *. by subst. }
  unfold db1. rewrite Hdel. cbn [fst snd collection with_collection].
  split_and!; try done.
  - intros q. rewrite !getSortedQueue_Permutation.
    cbn [collection with_collection]. rewrite !list_elem_of_filter.
    split.
    + intros (Hact & Hid & Hq). split_and!; [done..|]. by intros ->.
    + intros [[Hact Hq] Hne]. split_and!; [done| |done].
      intros Hid. apply Hne. by apply (same_id_same_doc (collection db)).
  - unfold GET_patient. cbn [collection].
    rewrite (proj2 (list_find_None (has_id (_id p)) _)); [done|].
    apply Forall_forall. intros x Hx. apply list_elem_of_filter in Hx as [Hx _].
    done.
Qed.

Lemma delete_removes_target_witness :
  name <$> collection (DELETE_patient (ObjectId 0) scenarioC).1.1
  = ["B2"; "B3"; "B4"; "W1"; "W2"]
  ∧ filter in_progress (collection (DELETE_patient (ObjectId 0) scenarioC).1.1) = [].
Proof.
  assert (NoDup (_id <$> collection scenarioC)) as Hids.
  { apply (bool_decide_unpack _). vm_compute. exact I. }
  destruct (delete_removes_target sample_env scenarioC
              (start 11 (mkPatient 0 "B1" "9000000000" None 1 BOOKED WAITING
                           "General" 0 None None)) Hids)
    as (Hdocs & _); [vm_compute; left|].
  cbn [_id start] in Hdocs. rewrite Hdocs. split; reflexivity.
Defined.

Lemma update_by_id_found (f : IPatient → IPatient) (docs : list IPatient)
    (p : IPatient) :
  NoDup (_id <$> docs) → p ∈ docs →
  ∃ i, docs !! i = Some p
       ∧ update_first (has_id (_id p)) f docs = (Some (f p), <[i := f p]> docs).
Proof.
  intros Hnd Hp. apply list_elem_of_lookup in Hp as [i Hi]. exists i.
  split; [done|]. by rewrite update_first_find, (find_by_id docs i p).
Qed.

Lemma length_filter_insert (P : IPatient → Prop) `{∀ p, Decision (P p)}
    (docs : list IPatient) (i : nat) (p q : IPatient) :
  docs !! i = Some p → ¬ P p → P q →
  length (filter P (<[i := q]> docs)) = S (length (filter P docs)).
Proof.
  revert i. induction docs as [|d docs IH]; intros i Hi Hp Hq; [done|].
  destruct i as [|i].
  - injection Hi as ->. change (<[0:=q]> (p :: docs)) with (q :: docs).
    by rewrite (filter_cons_True P q docs Hq), (filter_cons_False P p docs Hp).
  - change (<[S i:=q]> (d :: docs)) with (d :: <[i:=q]> docs).
    rewrite !filter_cons. specialize (IH i Hi Hp Hq).
    destruct (decide (P d)); cbn [length]; by rewrite IH.
Qed.

(** X14. A status edit of a stored entry, on a store with distinct ids,
    stores the status of the body in that document and changes nothing else,
    whatever the old status is and whatever text the new one is, and answers
    with the edited document; the entry is in the queue afterwards exactly
    when the new status is WAITING or IN_PROGRESS.  A body without status
    changes nothing and is answered with the document as it is. *)
Theorem edit_sets_status_only (s : Status) (db : Db) (p : IPatient) :
  NoDup (_id <$> collection db) →
  p ∈ collection db →
  let db1 := (PUT_status (ObjectId (_id p)) (Some s) db).1.1 in
  collection db1
  = (λ d, if decide (_id d = _id p) then set_status s d else d)
      <$> collection db
  ∧ (PUT_status (ObjectId (_id p)) (Some s) db).2
    = mkResponse 200 (JPatient (Some (set_status s p)))
  ∧ (set_status s p ∈ getSortedQueue db1 ↔ s = WAITING ∨ s = IN_PROGRESS)
  ∧ PUT_status (ObjectId (_id p)) None db
    = (db, [io_QUEUE_UPDATE (calculateWaitTimes (getSortedQueue db))],
       mkResponse 200 (JPatient (Some p))).
Proof.
  intros Hids Hp db1.
  destruct (update_by_id_found (status_update (Some s)) (collection db) p
              Hids Hp) as (i & Hi & Hupd).
  pose proof (update_by_id_fmap (_id p) (status_update (Some s))
                (collection db) Hids) as Hfmap.
  split_and!.
  - unfold db1, PUT_status. rewrite Hupd in *.
    cbn [fst snd collection with_collection] in *. done.
  - unfold PUT_status. by rewrite Hupd.
  - unfold db1, PUT_status. rewrite Hupd in *.
    cbn [fst snd collection with_collection status_update] in *.
    rewrite getSortedQueue_Permutation. cbn [collection with_collection].
    rewrite list_elem_of_filter. split; [by intros [Hact _]|].
    intros Hs. split; [done|].
    apply list_elem_of_lookup. exists i.
    apply list_lookup_insert_eq. by eapply lookup_lt_Some.
  - destruct (update_by_id_found (status_update None) (collection db) p
                Hids Hp) as (k & Hk & Hnone).
    unfold PUT_status. rewrite Hnone. cbn [status_update].
    rewrite (list_insert_id _ k p Hk). by destruct db.
Qed.

Lemma edit_sets_status_only_witness :
  status <$> collection (PUT_status (ObjectId 3) (Some "ON_HOLD") scenarioC).1.1
  = [IN_PROGRESS; WAITING; WAITING; "ON_HOLD"; WAITING; WAITING]
  ∧ name <$> getSortedQueue
               (PUT_status (ObjectId 3) (Some "ON_HOLD") scenarioC).1.1
    = ["B1"; "B2"; "B3"; "W1"; "W2"].
Proof.
  assert (NoDup (_id <$> collection scenarioC)) as Hids.
  { apply (bool_decide_unpack _). vm_compute. exact I. }
  destruct (edit_sets_status_only "ON_HOLD" scenarioC
              (mkPatient 3 "B4" "9000000000" None 4 BOOKED WAITING "General"
                 0 None None) Hids)
    as (Hdocs & _); [vm_compute; do 3 right; left|].
  cbn [_id] in Hdocs. split; [|reflexivity].
  rewrite Hdocs. reflexivity.
Defined.

(** X15. A status edit to IN_PROGRESS of a stored entry that is not in
    progress, on a store with distinct ids, raises the number of entries in
    progress by one, however many there are already: the edit does not keep
    the limit of one entry in progress. *)
Theorem edit_adds_in_progress (db : Db) (p : IPatient) :
  NoDup (_id <$> collection db) →
  p ∈ collection db → status p ≠ IN_PROGRESS →
  length (filter in_progress (collection (PUT_status (ObjectId (_id p)) (Some IN_PROGRESS) db).1.1))
  = S (length (filter in_progress (collection db))).
Proof.
  intros Hids Hp Hs.
  destruct (update_by_id_found (status_update (Some IN_PROGRESS))
              (collection db) p Hids Hp) as (i & Hi & Hupd).
  unfold PUT_status. rewrite Hupd.
  cbn [fst collection with_collection status_update].
  by apply (length_filter_insert in_progress _ i p).
Qed.

Lemma edit_adds_in_progress_witness :
  length (filter in_progress (collection (PUT_status (ObjectId 3) (Some IN_PROGRESS) scenarioC).1.1))
  = 2.
Proof.
  assert (NoDup (_id <$> collection scenarioC)) as Hids.
  { apply (bool_decide_unpack _). vm_compute. exact I. }
  pose proof (edit_adds_in_progress scenarioC
                (mkPatient 3 "B4" "9000000000" None 4 BOOKED WAITING
                   "General" 0 None None) Hids) as Hadd.
  cbn [_id status] in Hadd. rewrite Hadd; [reflexivity| |discriminate].
  vm_compute. do 3 right. left.
Defined.

(** ** What the handlers broadcast *)

(** X16. A handler of a mutating request either leaves the store as it is
    and broadcasts nothing (a rejected registration, a deletion of an
    unknown id, a malformed id), or broadcasts exactly one snapshot, which is
    the queue GET /api/queue answers on the store the handler leaves. *)
Theorem broadcast_follows_store (r : Request) (db : Db) :
  (published (handle r db).2 = [] ∧ (handle r db).1 = db)
  ∨ (∃ queue,
       published (handle r db).2 = [queue]
       ∧ GET_queue (handle r db).1 = mkResponse 200 (JQueue queue)).
Proof.
  destruct r as [env now body|id s|id| |tDone tStart]; cbn [handle].
  - unfold POST_patients. destruct (new_Patient now body db); [right|left; done].
    eexists. split; reflexivity.
  - destruct id as [id|raw]; [right|left; done]. unfold PUT_status.
    destruct (update_first (has_id id) (status_update s) (collection db)).
    eexists. split; reflexivity.
  - destruct id as [id|raw]; [|left; done]. unfold DELETE_patient.
    destruct (delete_first (has_id id) (collection db)) as [[p|] docs];
      [right|left; done].
    eexists. split; reflexivity.
  - right. exists []. split; reflexivity.
  - right. eexists. split; reflexivity.
Qed.

(** ** A booked registration on a queue of walk-in entries *)

Lemma no_booked_all_walkIn (l : list IPatient) :
  filter is_booked l = [] → filter is_walkIn l = l.
Proof.
  intros Hnil. apply filter_all. apply Forall_forall. intros p Hp.
  pose proof (filter_nil_not_elem_of is_booked l p Hnil) as Hnot.
  unfold is_walkIn, is_booked in *. destruct (type p); [|done].
  by destruct Hnot.
Qed.

(** X17. A booked registration made while no booked entry is active, the
    clock not being behind the stored [createdAt], goes to the head of the
    queue, in front of every walk-in entry and of the entry in progress if
    there is one; it is announced with position 0 and estimated wait 0
    although it is WAITING. *)
Theorem booked_overtakes_walkIn (env : Env) (now : Z) (body : RegisterBody)
    (db : Db) (patient : IPatient) :
  new_Patient now body db = Some patient →
  type patient = BOOKED →
  Forall (λ p, (createdAt p ≤ now)%Z) (collection db) →
  filter is_booked (find_active (collection db)) = [] →
  let db1 := (POST_patients env now body db).1.1 in
  getSortedQueue db1 = patient :: getSortedQueue db
  ∧ status patient = WAITING
  ∧ calculateWaitTimes (getSortedQueue db1) !! 0
    = Some (mkQueueItem patient 0 0).
Proof.
  intros Hnew Hty Hclock Hnone db1.
  pose proof (new_Patient_Some now body db patient Hnew)
    as (_ & _ & Hwaiting & _).
  destruct (register_joins_back env now body db patient Hnew Hclock)
    as [Hfind _]. fold db1 in Hfind.
  assert (getSortedQueue db1 = patient :: getSortedQueue db) as Hq.
  { unfold getSortedQueue. rewrite !slotQueue_spec, Hfind, !filter_app, Hnone.
    rewrite (filter_cons_True is_booked patient [] Hty), !filter_nil.
    rewrite (filter_cons_False is_walkIn patient [])
      by (unfold is_walkIn; congruence).
    rewrite filter_nil, app_nil_r, app_nil_l.
    rewrite (slot_merge_step [patient]) by (left; done).
    cbn [firstn skipn app]. f_equal.
    set (w := filter is_walkIn (find_active (collection db))).
    assert (∀ l, slot_merge [] l = l) as Hnil.
    { induction l as [|y l IH]; [apply slot_merge_nil_nil|].
      rewrite slot_merge_step by (right; done).
      cbn [firstn skipn app]. by rewrite take_0, drop_0, IH. }
    by rewrite !Hnil, take_drop. }
  split_and!; [done..|].
  rewrite Hq. unfold calculateWaitTimes. cbn [imap]. cbn [lookup list_lookup].
  by destruct (bool_decide _).
Qed.

Lemma booked_overtakes_walkIn_witness :
  (name <$> getSortedQueue (run overtaken_requests empty_db) = ["B1"; "W1"])
  ∧ (status <$> getSortedQueue (run overtaken_requests empty_db)
     = [WAITING; IN_PROGRESS])
  ∧ (position <$> calculateWaitTimes
                    (getSortedQueue (run overtaken_requests empty_db))
     = [0; 0]).
Proof.
  destruct (booked_overtakes_walkIn scenarioA_env 0
              (mkBody (Some "B1") (Some "9000000000") (Some "BOOKED"))
              (run (take 2 overtaken_requests) empty_db)
              (mkPatient 1 "B1" "9000000000" None 2 BOOKED WAITING "General"
                 0 None None) eq_refl eq_refl) as (Hq & _ & _).
  - vm_compute. repeat constructor; discriminate.
  - reflexivity.
  - change (run overtaken_requests empty_db)
      with (POST_patients scenarioA_env 0
              (mkBody (Some "B1") (Some "9000000000") (Some "BOOKED"))
              (run (take 2 overtaken_requests) empty_db)).1.1.
    rewrite Hq. split_and!; reflexivity.
Defined.

(** ** Tracking links *)

(** X18. In one environment, different token numbers have different
    tracking links. *)
Theorem tracking_link_inj (env : Env) (t1 t2 : Z) :
  t1 ≠ t2 → generateTrackingLink env t1 ≠ generateTrackingLink env t2.
Proof.
  unfold generateTrackingLink. intros Hne Heq. apply Hne.
  apply String.app_inj in Heq. apply String.app_inj in Heq.
  by apply pretty_Z_inj in Heq.
Qed.

Lemma tracking_link_inj_witness :
  generateTrackingLink sample_env 7 ≠ generateTrackingLink sample_env 8.
Proof. apply (tracking_link_inj sample_env 7 8). discriminate. Defined.

(** ** START_CONSULTATION when several entries are in progress *)

Lemma length_filter_insert_bounds (P : IPatient → Prop) `{∀ p, Decision (P p)}
    (docs : list IPatient) (i : nat) (p q : IPatient) :
  docs !! i = Some p → P q →
  length (filter P docs) ≤ length (filter P (<[i := q]> docs))
  ≤ S (length (filter P docs)).
Proof.
  revert i. induction docs as [|d docs IH]; intros i Hi Hq; [done|].
  destruct i as [|i].
  - change (<[0:=q]> (d :: docs)) with (q :: docs).
    rewrite (filter_cons_True P q docs Hq), filter_cons.
    destruct (decide (P d)); cbn [length]; lia.
  - change (<[S i:=q]> (d :: docs)) with (d :: <[i:=q]> docs).
    rewrite !filter_cons. specialize (IH i Hi Hq).
    destruct (decide (P d)); cbn [length]; lia.
Qed.

(** X19. START_CONSULTATION on a store with distinct ids completes one entry
    in progress only: of [c] entries in progress, [c - 1] or [c] are in
    progress afterwards when [c] is at least 1, so that the event does not
    bring several entries in progress back to one by itself. *)
Theorem advance_completes_one (tDone tStart : Z) (db : Db) :
  NoDup (_id <$> collection db) →
  let c := length (filter in_progress (collection db)) in
  let c' := length (filter in_progress
                      (collection (START_CONSULTATION tDone tStart db).1)) in
  pred c ≤ c' ≤ S (pred c).
Proof.
  intros Hids c c'. unfold c, c'.
  rewrite <- (complete_current_count tDone),
    <- (complete_current_collection tDone db).
  destruct (getSortedQueue (complete_current tDone db).2)
    as [|next rest] eqn:Hq.
  - destruct (start_next_nil tDone tStart db Hq) as [-> _]. lia.
  - destruct (start_next_cons tDone tStart db Hids next rest Hq)
      as (i & Hi & _ & ->).
    by apply (length_filter_insert_bounds in_progress _ i next).
Qed.

Lemma advance_completes_one_witness :
  length (filter in_progress
            (collection (PUT_status (ObjectId 1) (Some IN_PROGRESS)
                           (PUT_status (ObjectId 3) (Some IN_PROGRESS) scenarioC).1.1).1.1)) = 3
  ∧ 2 ≤ length (filter in_progress
                  (collection
                     (START_CONSULTATION 20 21
                        (PUT_status (ObjectId 1) (Some IN_PROGRESS)
                           (PUT_status (ObjectId 3) (Some IN_PROGRESS) scenarioC).1.1).1.1).1)).
Proof.
  split; [reflexivity|].
  assert (NoDup (_id <$> collection
                           (PUT_status (ObjectId 1) (Some IN_PROGRESS)
                              (PUT_status (ObjectId 3) (Some IN_PROGRESS) scenarioC).1.1).1.1))
    as Hids.
  { apply (bool_decide_unpack _). vm_compute. exact I. }
  pose proof (advance_completes_one 20 21 _ Hids) as [Hlow _].
  replace (length (filter in_progress
                     (collection
                        (PUT_status (ObjectId 1) (Some IN_PROGRESS)
                           (PUT_status (ObjectId 3) (Some IN_PROGRESS) scenarioC).1.1).1.1)))
    with 3 in Hlow by reflexivity.
  exact Hlow.
Defined.
